(** * ATS keyword matcher: a verification of [cli_runner.py]

    The matcher of [cli_runner.py] ([simple_tokenizer], [clean_and_tokenize]
    and [compare_keywords], lines 13 to 27) is embedded below and its
    specification is checked against it.

    Modelling choices.
    - Text comes in two models.  The comparator and the program work on a
      [string] whose characters are the code points U+0000..U+00FF.  On that
      range [str.lower] works character by character and stays inside the
      range, and the word characters of [re] are those for which
      [str.isalnum] holds, plus the underscore.  The tokenizer is also given
      on all of Unicode, in [Unicode]: text is a list of code points, the
      Unicode tables of the interpreter are a parameter, and [str.lower] is
      written out with its rule for the capital sigma.  On U+0000..U+00FF
      the two tokenizers agree ([latin1_simple_tokenizer]).
    - A Python [set] of strings is a [gset string]; [sorted] of a set is the
      sorted list of its elements under the code point order of [str].
    - A Python [float] is a binary64 number, kept as mantissa and exponent;
      [/], [*] and [round] are correctly rounded, ties to even.  The exponent
      range is not modelled: the numbers met here lie between 2^-63 and 100.
    - [ZeroDivisionError] is the one exception the matcher could raise; the
      functions that may raise return a [result].
    - The rest of the file ([extract_text_from_pdf], [read_text_file],
      [main]) runs against a [world]: the file system, the standard input,
      the standard output, PyPDF2 and the formatting functions of the
      library are its fields, and a run records the events it causes. *)

From Stdlib Require Import ZArith QArith Qround Qpower Qabs Lia Lqa Ascii.
From stdpp Require Import base decidable list sorting gmap sets strings.

#[local] Set Warnings "-clear-no-such-hyp".

Local Open Scope Z_scope.

(** ** Characters *)

Module Char.

Definition code (c : ascii) : N := N_of_ascii c.

Definition between (lo hi : N) (c : ascii) : bool :=
  ((lo <=? code c) && (code c <=? hi))%N.

(** [str.isalnum] on U+0000..U+00FF: the ASCII digits and letters, the
    ordinal indicators, the superscript digits, micro sign, the vulgar
    fractions and the Latin-1 letters. *)
Definition isalnum (c : ascii) : bool :=
  between 48 57 c || between 65 90 c || between 97 122 c
  || between 170 170 c || between 178 179 c || between 181 181 c
  || between 185 186 c || between 188 190 c
  || between 192 214 c || between 216 246 c || between 248 255 c.

(** [\w] of the [re] module on [str] patterns. *)
Definition is_word (c : ascii) : bool :=
  isalnum c || (code c =? 95)%N.

(** [str.lower] on one character: A-Z and the Latin-1 capitals move up by
    32, everything else is unchanged. *)
Definition lower (c : ascii) : ascii :=
  if between 65 90 c || between 192 214 c || between 216 222 c
  then ascii_of_N (code c + 32)
  else c.

End Char.

(** [text.lower()] on text of U+0000..U+00FF, where it is [Unicode.lower]
    ([latin1_lower]). *)
Fixpoint lower (s : string) : string :=
  match s with
  | EmptyString => EmptyString
  | String c s' => String (Char.lower c) (lower s')
  end.

(** ** The regular expression [\b\w+\b] and [re.findall] *)

Module Re.

(** The pieces of a pattern that the tokenizer uses. *)
Inductive item : Type :=
| Boundary          (* \b  *)
| WordPlus.         (* \w+ *)

Definition pattern := list item.

Definition word_before (prev : option ascii) : bool :=
  match prev with Some c => Char.is_word c | None => false end.

Definition word_after (rest : string) : bool :=
  match rest with String c _ => Char.is_word c | EmptyString => false end.

(** [\b] holds between two positions exactly one of which is a word
    character; the outside of the string counts as a non-word. *)
Definition at_boundary (prev : option ascii) (rest : string) : bool :=
  xorb (word_before prev) (word_after rest).

(** [match_here p prev rest] is the length of the match of [p] that the
    backtracking matcher finds at the position whose left neighbour is
    [prev] and whose right context is [rest].  [\w+] is greedy: it first
    takes one more word character and only gives one back when the rest of
    the pattern fails. *)
Fixpoint match_here (p : pattern) : option ascii -> string -> option nat :=
  match p with
  | [] => fun _ _ => Some O
  | Boundary :: k => fun prev rest =>
      if at_boundary prev rest then match_here k prev rest else None
  | WordPlus :: k =>
      fix greedy (prev : option ascii) (rest : string) : option nat :=
        match rest with
        | EmptyString => None
        | String c rest' =>
            if Char.is_word c then
              match greedy (Some c) rest' with
              | Some n => Some (S n)
              | None =>
                  match match_here k (Some c) rest' with
                  | Some n => Some (S n)
                  | None => None
                  end
              end
            else None
        end
  end.

Fixpoint take (n : nat) (s : string) : string :=
  match n, s with
  | S n', String c s' => String c (take n' s')
  | _, _ => EmptyString
  end.

(** [scan p prev rest skip]: the scan of [re.findall].  At each position
    outside a match the pattern is tried; a match of length [n] is
    reported and the next [n - 1] positions, which it covers, are passed
    over ([skip]).  An empty match reports the empty string and the scan
    moves on by one character. *)
Fixpoint scan (p : pattern) (prev : option ascii) (rest : string)
         (skip : nat) : list string :=
  match rest with
  | EmptyString =>
      match skip, match_here p prev EmptyString with
      | O, Some _ => [EmptyString]
      | _, _ => []
      end
  | String c rest' =>
      match skip with
      | S k => scan p (Some c) rest' k
      | O =>
          match match_here p prev rest with
          | Some n => take n rest :: scan p (Some c) rest' (Nat.pred n)
          | None => scan p (Some c) rest' O
          end
      end
  end.

Definition findall (p : pattern) (s : string) : list string :=
  scan p None s O.

End Re.

(** ** The tokenizer *)

Definition word_pattern : Re.pattern := [Re.Boundary; Re.WordPlus; Re.Boundary].

Definition simple_tokenizer (text : string) : list string :=
  Re.findall word_pattern (lower text).

Definition clean_and_tokenize (text : string) : gset string :=
  list_to_set (simple_tokenizer text).

(** ** Python numbers *)

(** Binary64 numbers, [mant * 2 ^ expo]; a non-zero number is kept
    normalised, [2^52 <= |mant| < 2^53]. *)
Module Float.

Record t : Type := mk { mant : Z; expo : Z }.

Definition value (x : t) : Q := (inject_Z (mant x) * 2 ^ expo x)%Q.

Definition zero : t := mk 0 0.

(** The nearest integer, a tie going to the even one. *)
Definition rne (x : Q) : Z :=
  let f := Qfloor x in
  match (x - inject_Z f ?= 1 # 2)%Q with
  | Lt => f
  | Gt => f + 1
  | Eq => if Z.even f then f else f + 1
  end.

(** The binade of a positive rational: [2 ^ ilog2 x <= x < 2 ^ (ilog2 x + 1)]. *)
Definition ilog2 (x : Q) : Z :=
  let e := Z.log2 (Qnum x) - Z.log2 (Zpos (Qden x)) in
  if Qle_bool (2 ^ e)%Q x then e else e - 1.

(** The binary64 number nearest to a positive rational. *)
Definition of_pos (x : Q) : t :=
  let e := ilog2 x in
  let m := rne (x * 2 ^ (52 - e))%Q in
  if m =? 2 ^ 53 then mk (2 ^ 52) (e - 51) else mk m (e - 52).

Definition of_Q (x : Q) : t :=
  match Qnum x with
  | Z0 => zero
  | Zpos _ => of_pos x
  | Zneg _ => let y := of_pos (- x)%Q in mk (- mant y) (expo y)
  end.

(** [float(n)] *)
Definition of_Z (n : Z) : t := of_Q (inject_Z n).

(** [x * y] on floats *)
Definition mul (x y : t) : t := of_Q (value x * value y)%Q.

(** [round(x, ndigits)] on a float, [ndigits >= 0]: the decimal with
    [ndigits] places nearest to the exact value of [x], ties to even, and
    then the float nearest to that decimal. *)
Definition round (x : t) (ndigits : nat) : t :=
  let p := inject_Z (10 ^ Z.of_nat ndigits) in
  of_Q (inject_Z (rne (value x * p)%Q) / p)%Q.

End Float.

Inductive exn : Type := ZeroDivisionError.

Inductive result (A : Type) : Type :=
| Ok (a : A)
| Raise (e : exn).
Arguments Ok {A} a.
Arguments Raise {A} e.

Definition bind {A B : Type} (r : result A) (k : A -> result B) : result B :=
  match r with
  | Ok a => k a
  | Raise e => Raise e
  end.

Notation "'do' x <- r ; k" := (bind r (fun x => k))
  (at level 10, x name, r at level 100, k at level 200).

(** A Python number: an [int] or a [float]. *)
Inductive number : Type :=
| Int (n : Z)
| Flt (x : Float.t).

Definition number_value (s : number) : Q :=
  match s with
  | Int n => inject_Z n
  | Flt x => Float.value x
  end.

(** [a / b] on two ints: the correctly rounded quotient. *)
Definition truediv (a b : Z) : result Float.t :=
  if b =? 0 then Raise ZeroDivisionError
  else Ok (Float.of_Q (inject_Z a / inject_Z b)%Q).

(** [x * n] for a float [x] and an int [n]. *)
Definition mul_int (x : Float.t) (n : Z) : Float.t :=
  Float.mul x (Float.of_Z n).

(** [round(s, ndigits)]: an int is its own rounding when [ndigits >= 0]. *)
Definition round (s : number) (ndigits : nat) : number :=
  match s with
  | Int n => Int n
  | Flt x => Flt (Float.round x ndigits)
  end.

(** ** Sets and sorting *)

(** [len(s)] *)
Definition len (s : gset string) : Z := Z.of_nat (size s).

(** Truth value of a set: it is non-empty. *)
Definition truthy (s : gset string) : bool := bool_decide (s ≠ ∅).

(** [sorted(s)] of a set.  The order of [str] is the lexicographic order on
    code points, [String.le]; the elements of a set are distinct, so the
    sorted list does not depend on the sorting algorithm. *)
Definition sorted (s : gset string) : list string :=
  merge_sort String.le (elements s).

(** ** The comparator *)

Definition compare_keywords (resume_text job_desc_text : string)
  : result (number * list string * list string) :=
  let resume_words := clean_and_tokenize resume_text in
  let job_keywords := clean_and_tokenize job_desc_text in
  let matched_keywords := resume_words ∩ job_keywords in
  let missing_keywords := job_keywords ∖ resume_words in
  do score <- (if truthy job_keywords
               then do q <- truediv (len matched_keywords) (len job_keywords);
                    Ok (Flt (mul_int q 100))
               else Ok (Int 0));
  Ok (round score 2, sorted matched_keywords, sorted missing_keywords).

(** ** The words of the specification *)

(** The longest prefix of word characters, and what follows it. *)
Fixpoint word_prefix (s : string) : string :=
  match s with
  | String c s' => if Char.is_word c then String c (word_prefix s') else EmptyString
  | EmptyString => EmptyString
  end.

Fixpoint skip_word (s : string) : string :=
  match s with
  | String c s' => if Char.is_word c then skip_word s' else s
  | EmptyString => EmptyString
  end.

(** The runs of word characters of [s], from left to right. *)
Fixpoint runs (s : string) : list string :=
  match s with
  | EmptyString => []
  | String c s' =>
      if Char.is_word c then
        if Re.word_after s' then
          match runs s' with
          | r :: rs => String c r :: rs
          | [] => [String c EmptyString]
          end
        else String c EmptyString :: runs s'
      else runs s'
  end.

(** The exact percentage of the job tokens that are matched. *)
Definition exact_percentage (matched jobTokens : gset string) : Q :=
  (inject_Z (len matched) / inject_Z (len jobTokens) * 100)%Q.

(** The exact percentage rounded to two decimal places, a tie going to the
    even hundredth as [round] documents it. *)
Definition rounded_percentage (matched jobTokens : gset string) : Q :=
  (inject_Z (Float.rne (exact_percentage matched jobTokens * 100)) / 100)%Q.

(** An exact percentage halfway between two hundredths. *)
Definition at_tie (x : Q) : Prop :=
  (x * 100 - inject_Z (Qfloor (x * 100)) == 1 # 2)%Q.

(** A job description of 160 tokens and two résumés that have 23 and 49 of
    them. *)
Definition job_160 : string :=
  "aa ab ac ad ae af ag ah ai aj ak al am an ao ap aq ar as at au av aw ax ay az ba bb bc bd be bf bg bh bi bj bk bl bm bn bo bp bq br bs bt bu bv bw bx by bz ca cb cc cd ce cf cg ch ci cj ck cl cm cn co cp cq cr cs ct cu cv cw cx cy cz da db dc dd de df dg dh di dj dk dl dm dn do dp dq dr ds dt du dv dw dx dy dz ea eb ec ed ee ef eg eh ei ej ek el em en eo ep eq er es et eu ev ew ex ey ez fa fb fc fd fe ff fg fh fi fj fk fl fm fn fo fp fq fr fs ft fu fv fw fx fy fz ga gb gc gd".

Definition resume_23 : string :=
  "aa ab ac ad ae af ag ah ai aj ak al am an ao ap aq ar as at au av aw".

Definition resume_49 : string :=
  "aa ab ac ad ae af ag ah ai aj ak al am an ao ap aq ar as at au av aw ax ay az ba bb bc bd be bf bg bh bi bj bk bl bm bn bo bp bq br bs bt bu bv bw".

(** ** The tokenizer on all of Unicode *)

(** Text as Python has it: a sequence of code points.  What [str.lower] and
    [\w] do to a code point is in the Unicode tables of the interpreter;
    they are a parameter here.  [str.lower] itself is written out: every
    code point is replaced by its full lower case mapping, except the
    capital sigma, which becomes a final or a small sigma by what stands
    around it. *)
Module Unicode.

Record tables : Type := {
  to_lower_full : N -> list N;      (* the lower case mapping of a code point *)
  is_cased : N -> bool;             (* the property Cased *)
  is_case_ignorable : N -> bool;    (* the property Case_Ignorable *)
  is_word : N -> bool               (* [\w]: [str.isalnum] or the underscore *)
}.

Definition capital_sigma : N := 931.   (* U+03A3 *)
Definition final_sigma : N := 962.     (* U+03C2 *)
Definition small_sigma : N := 963.     (* U+03C3 *)

Section text.
Context (u : tables).

Fixpoint skip_ignorable (s : list N) : list N :=
  match s with
  | c :: s' => if is_case_ignorable u c then skip_ignorable s' else s
  | [] => []
  end.

(** Whether a capital sigma is in final position: a cased letter stands
    before it and none after it, case-ignorable code points being passed
    over.  [before] is what precedes the sigma, nearest first. *)
Definition in_final_position (before after : list N) : bool :=
  match skip_ignorable before with
  | c :: _ =>
      is_cased u c &&
      match skip_ignorable after with
      | d :: _ => negb (is_cased u d)
      | [] => true
      end
  | [] => false
  end.

Fixpoint lower_from (before s : list N) : list N :=
  match s with
  | [] => []
  | c :: s' =>
      (if (c =? capital_sigma)%N
       then [if in_final_position before s' then final_sigma else small_sigma]
       else to_lower_full u c)
      ++ lower_from (c :: before) s'
  end.

(** [text.lower()] *)
Definition lower (s : list N) : list N := lower_from [] s.

Definition word_before (prev : option N) : bool :=
  match prev with Some c => is_word u c | None => false end.

Definition word_after (rest : list N) : bool :=
  match rest with c :: _ => is_word u c | [] => false end.

Definition at_boundary (prev : option N) (rest : list N) : bool :=
  xorb (word_before prev) (word_after rest).

(** The backtracking matcher of [Re.match_here], on code points. *)
Fixpoint match_here (p : Re.pattern) : option N -> list N -> option nat :=
  match p with
  | [] => fun _ _ => Some O
  | Re.Boundary :: k => fun prev rest =>
      if at_boundary prev rest then match_here k prev rest else None
  | Re.WordPlus :: k =>
      fix greedy (prev : option N) (rest : list N) : option nat :=
        match rest with
        | [] => None
        | c :: rest' =>
            if is_word u c then
              match greedy (Some c) rest' with
              | Some n => Some (S n)
              | None =>
                  match match_here k (Some c) rest' with
                  | Some n => Some (S n)
                  | None => None
                  end
              end
            else None
        end
  end.

(** The scan of [re.findall], as [Re.scan]. *)
Fixpoint scan (p : Re.pattern) (prev : option N) (rest : list N)
         (skip : nat) : list (list N) :=
  match rest with
  | [] =>
      match skip, match_here p prev [] with
      | O, Some _ => [[]]
      | _, _ => []
      end
  | c :: rest' =>
      match skip with
      | S k => scan p (Some c) rest' k
      | O =>
          match match_here p prev rest with
          | Some n => take n rest :: scan p (Some c) rest' (Nat.pred n)
          | None => scan p (Some c) rest' O
          end
      end
  end.

Definition findall (p : Re.pattern) (s : list N) : list (list N) :=
  scan p None s O.

Definition simple_tokenizer (text : list N) : list (list N) :=
  findall word_pattern (lower text).

Definition clean_and_tokenize (text : list N) : gset (list N) :=
  list_to_set (simple_tokenizer text).

(** The words of the specification, on code points. *)

Fixpoint word_prefix (s : list N) : list N :=
  match s with
  | c :: s' => if is_word u c then c :: word_prefix s' else []
  | [] => []
  end.

Fixpoint skip_word (s : list N) : list N :=
  match s with
  | c :: s' => if is_word u c then skip_word s' else s
  | [] => []
  end.

Definition word_last (s : list N) : bool :=
  match last s with Some c => is_word u c | None => false end.

(** [t] is a maximal contiguous run of word characters of [s]. *)
Definition maximal_run (t s : list N) : Prop :=
  exists pre post : list N,
    s = pre ++ t ++ post /\ t <> [] /\ forallb (is_word u) t = true /\
    word_last pre = false /\ word_after post = false.

Fixpoint runs (s : list N) : list (list N) :=
  match s with
  | [] => []
  | c :: s' =>
      if is_word u c then
        if word_after s' then
          match runs s' with
          | r :: rs => (c :: r) :: rs
          | [] => [[c]]
          end
        else [c] :: runs s'
      else runs s'
  end.

End text.

(** The code points of a string of U+0000..U+00FF. *)
Fixpoint codes (s : string) : list N :=
  match s with
  | EmptyString => []
  | String c s' => Char.code c :: codes s'
  end.

(** Tables that are right on U+0000..U+00FF: there, the word characters and
    the lower case mapping are those of [Char]. *)
Definition latin1_faithful (u : tables) : Prop :=
  forall c : ascii,
    is_word u (Char.code c) = Char.is_word c /\
    to_lower_full u (Char.code c) = [Char.code (Char.lower c)].

(** A separator: a code point that is no word character, is neither cased
    nor case-ignorable and is its own lower case, such as the space. *)
Definition separator (u : tables) (c : N) : Prop :=
  is_word u c = false /\ is_cased u c = false /\ is_case_ignorable u c = false /\
  to_lower_full u c = [c].

(** The tables cut down to U+0000..U+00FF: every code point above is taken
    as an uncased character that is no word character. *)
Definition latin1_tables : tables :=
  {| to_lower_full := fun c =>
       if (c <? 256)%N then [Char.code (Char.lower (ascii_of_N c))] else [c];
     is_cased := fun c =>
       (c <? 256)%N &&
       (let a := ascii_of_N c in
        Char.between 65 90 a || Char.between 97 122 a || Char.between 170 170 a
        || Char.between 181 181 a || Char.between 186 186 a
        || Char.between 192 214 a || Char.between 216 246 a || Char.between 248 255 a);
     is_case_ignorable := fun c =>
       bool_decide (c ∈ [39; 46; 58; 94; 96; 168; 173; 175; 180; 183; 184]%N);
     is_word := fun c => (c <? 256)%N && Char.is_word (ascii_of_N c) |}.

End Unicode.

(** ** The command line program *)

(** [sep.join(l)] *)
Fixpoint join (sep : string) (l : list string) : string :=
  match l with
  | [] => ""
  | x :: l' =>
      match l' with
      | [] => x
      | _ :: _ => x +:+ sep +:+ join sep l'
      end
  end.

(** [str.isspace] on U+0000..U+00FF. *)
Definition isspace (c : ascii) : bool :=
  Char.between 9 13 c || Char.between 28 32 c
  || Char.between 133 133 c || Char.between 160 160 c.

Fixpoint lstrip (s : string) : string :=
  match s with
  | String c s' => if isspace c then lstrip s' else s
  | EmptyString => EmptyString
  end.

Fixpoint rstrip (s : string) : string :=
  match s with
  | String c s' =>
      match rstrip s' with
      | EmptyString => if isspace c then EmptyString else String c EmptyString
      | r => String c r
      end
  | EmptyString => EmptyString
  end.

(** [s.strip()] *)
Definition strip (s : string) : string := rstrip (lstrip s).

(** The exceptions met in the program.  [LibraryError] stands for whatever
    a call into [pathlib], [PyPDF2] or the operating system raises. *)
Inductive error : Type :=
| SystemExit (code : Z)
| EOFError
| RuntimeError (msg : string)
| ArithmeticError (e : exn)
| LibraryError (name : string).

Inductive outcome (A : Type) : Type :=
| Returned (a : A)
| Raised (e : error).
Arguments Returned {A} a.
Arguments Raised {A} e.

(** The result of a call into a library. *)
Inductive lib (A : Type) : Type :=
| LibOk (a : A)
| LibRaise (name : string).
Arguments LibOk {A} a.
Arguments LibRaise {A} name.

(** What the program does to the outside, in order. *)
Inductive event : Type :=
| Prompt (text : string)       (* the prompt of [input] *)
| Print (text : string)        (* [print(text)] *)
| PrintFailed (text : string)  (* a [print(text)] that raised *)
| ReadStdin                    (* [sys.stdin.read()] *)
| ReadText (path : string)     (* [Path(path).read_text(encoding="utf-8")] *)
| OpenPdf (path : string).     (* [PyPDF2.PdfReader(path)] *)

(** The outside of the program.  A [Path] object is kept as its [str]. *)
Record world : Type := {
  Path : string -> string;                 (* [str(Path(s))] *)
  exists_ : string -> bool;                (* [path.exists()] *)
  suffix : string -> string;               (* [path.suffix] *)
  read_text : string -> lib string;        (* [path.read_text(encoding="utf-8")] *)
  PyPDF2 : option (string -> lib (list (lib (option string))));
    (* the module, if it was imported: [PdfReader(path).pages], each page
       given by what its [extract_text()] does *)
  isatty : bool;                           (* [sys.stdin.isatty()] *)
  stdout_write : list event -> string -> lib unit;
    (* what writing a text to [sys.stdout] does after the events so far: it
       raises when the text cannot be encoded or the output is closed *)
  str_number : number -> string;           (* [str(score)] in an f-string *)
  json_dumps : number -> list string -> list string -> string
    (* [json.dumps(result, ensure_ascii=False, indent=2)] *)
}.

(** The state of a run: what is left of the standard input, and the events
    so far. *)
Record console : Type := { stdin : string; trace : list event }.

Definition io (A : Type) : Type := console -> console * outcome A.

Definition ret {A : Type} (a : A) : io A := fun c => (c, Returned a).

Definition raise {A : Type} (e : error) : io A := fun c => (c, Raised e).

Definition io_bind {A B : Type} (m : io A) (k : A -> io B) : io B :=
  fun c =>
    match m c with
    | (c', Returned a) => k a c'
    | (c', Raised e) => (c', Raised e)
    end.

Notation "'perform' x <- m ; k" := (io_bind m (fun x => k))
  (at level 10, x name, m at level 100, k at level 200).
Notation "'exec' m ; k" := (io_bind m (fun _ => k))
  (at level 10, m at level 100, k at level 200).

Definition emit (e : event) : io unit :=
  fun c => ({| stdin := stdin c; trace := trace c ++ [e] |}, Returned tt).

(** [print(text)]: when the standard output refuses the text the call
    raises; some of the text may have been written by then. *)
Definition print (w : world) (text : string) : io unit :=
  fun c =>
    match stdout_write w (trace c) text with
    | LibOk _ => emit (Print text) c
    | LibRaise name =>
        (exec emit (PrintFailed text); raise (LibraryError name)) c
    end.

(** [sys.exit(code)] *)
Definition sys_exit {A : Type} (code : Z) : io A := raise (SystemExit code).

Definition of_lib {A : Type} (r : lib A) : io A :=
  match r with
  | LibOk a => ret a
  | LibRaise name => raise (LibraryError name)
  end.

Definition of_result {A : Type} (r : result A) : io A :=
  match r with
  | Ok a => ret a
  | Raise e => raise (ArithmeticError e)
  end.

(** The first line of [s], without its newline, and what follows it. *)
Fixpoint read_line (s : string) : string * string :=
  match s with
  | EmptyString => (EmptyString, EmptyString)
  | String c s' =>
      if Ascii.eqb c "010" then (EmptyString, s')
      else let (line, rest) := read_line s' in (String c line, rest)
  end.

(** [input(prompt)]: shows the prompt, then reads a line; at the end of the
    input it raises [EOFError]. *)
Definition input (prompt : string) : io string :=
  exec emit (Prompt prompt);
  fun c =>
    match stdin c with
    | EmptyString => (c, Raised EOFError)
    | s => let (line, rest) := read_line s in
           ({| stdin := rest; trace := trace c |}, Returned line)
    end.

(** [sys.stdin.read()] *)
Definition stdin_read : io string :=
  exec emit ReadStdin;
  fun c => ({| stdin := EmptyString; trace := trace c |}, Returned (stdin c)).

(** [try: m  except EOFError: handler] *)
Definition except_EOFError {A : Type} (m handler : io A) : io A :=
  fun c =>
    match m c with
    | (c', Raised EOFError) => handler c'
    | r => r
    end.

(** Truth value of an optional string argument: neither [None] nor [""]. *)
Definition given (o : option string) : option string :=
  match o with
  | Some (String c s) => Some (String c s)
  | _ => None
  end.

Definition pdf_missing : string :=
  "PyPDF2 is not installed. Please install dependencies (pip install -r requirements.txt)".

(** The loop [for page in reader.pages: text += page.extract_text() or ""]. *)
Fixpoint extract_pages (text : string) (pages : list (lib (option string))) : io string :=
  match pages with
  | [] => ret text
  | page :: pages' =>
      perform t <- of_lib page;
      extract_pages (text +:+ default EmptyString t) pages'
  end.

Definition extract_text_from_pdf (w : world) (path : string) : io string :=
  match PyPDF2 w with
  | None => raise (RuntimeError pdf_missing)
  | Some PdfReader =>
      exec emit (OpenPdf path);
      perform pages <- of_lib (PdfReader path);
      extract_pages EmptyString pages
  end.

Definition read_text_file (w : world) (path : string) : io string :=
  exec emit (ReadText path);
  of_lib (read_text w path).

(** [", ".join(keywords) if keywords else "None"] *)
Definition keyword_line (keywords : list string) : string :=
  match keywords with
  | [] => "None"
  | _ :: _ => join ", " keywords
  end.

(** The parsed command line. *)
Record arguments : Type := {
  resume : option string;
  job_file : option string;
  job_text : option string;
  json : bool
}.

(** [main], from the parsed arguments on: [argparse] itself is not
    modelled.  An option that is [None] or [""] counts as not given. *)
Definition main (w : world) (args : arguments) : io unit :=
  perform resume <-
    match given (resume args) with
    | Some r => ret r
    | None =>
        perform resume_input <-
          except_EOFError
            (perform line <- input "Enter path to resume file (.pdf or .txt): ";
             ret (strip line))
            (ret EmptyString);
        match resume_input with
        | EmptyString =>
            exec print w "No resume provided. Use --resume or run interactively.";
            sys_exit 2
        | _ => ret resume_input
        end
    end;
  let resume_path := Path w resume in
  exec (if exists_ w resume_path then ret tt
        else exec print w ("Resume file not found: " +:+ resume_path);
             sys_exit 2);
  perform job_desc <-
    match given (job_text args) with
    | Some text => ret text
    | None =>
        match given (job_file args) with
        | Some f =>
            let job_file := Path w f in
            exec (if exists_ w job_file then ret tt
                  else exec print w ("Job file not found: " +:+ job_file);
                       sys_exit 2);
            read_text_file w job_file
        | None =>
            exec (if isatty w
                  then exec print w "No job description provided. Use --job-text, --job-file, or pipe job description via stdin.";
                       sys_exit 2
                  else ret tt);
            stdin_read
        end
    end;
  let suffix := lower (suffix w resume_path) in
  perform resume_text <-
    (if String.eqb suffix ".pdf" then extract_text_from_pdf w resume_path
     else if String.eqb suffix ".txt" then read_text_file w resume_path
     else exec print w "Unsupported resume format. Supported: .pdf, .txt";
          sys_exit 2);
  perform result <- of_result (compare_keywords resume_text job_desc);
  let '(score, matched, missing) := result in
  if json args then print w (json_dumps w score matched missing)
  else
    exec print w ("ATS Match Score: " +:+ str_number w score +:+ "%");
    exec print w (String "010" "Matched keywords:");
    exec print w (keyword_line matched);
    exec print w (String "010" "Missing keywords:");
    print w (keyword_line missing).

(** ** Words about runs of the program *)



(** The paths of the files opened among some events. *)
Fixpoint opened (evs : list event) : list string :=
  match evs with
  | [] => []
  | ReadText path :: evs' => path :: opened evs'
  | OpenPdf path :: evs' => path :: opened evs'
  | _ :: evs' => opened evs'
  end.

(** A postcondition on the console and the outcome of a run of [m] from [c]. *)
Definition post {A : Type} (m : io A) (c : console)
           (Q : console -> outcome A -> Prop) : Prop :=
  Q (m c).1 (m c).2.

(** The world in which [PyPDF2] could not be imported. *)
Definition without_pdf (w : world) : world :=
  {| Path := Path w; exists_ := exists_ w; suffix := suffix w;
     read_text := read_text w; PyPDF2 := None; isatty := isatty w;
     stdout_write := stdout_write w;
     str_number := str_number w; json_dumps := json_dumps w |}.

(** The concatenation of some strings. *)
Fixpoint concat_str (l : list string) : string :=
  match l with
  | [] => EmptyString
  | s :: l' => s +:+ concat_str l'
  end.

(** A small world to run the program in: three résumés, one job file,
    piped standard input and a standard output that takes every text. *)
Definition example_world : world :=
  {| Path := fun s => s;
     exists_ := fun p => bool_decide (p ∈ ["cv.txt"; "cv.pdf"; "cv.docx"; "job.txt"]);
     suffix := fun p =>
       if String.eqb p "cv.pdf" then ".pdf"
       else if String.eqb p "cv.docx" then ".docx"
       else if bool_decide (p ∈ ["cv.txt"; "job.txt"]) then ".txt"
       else EmptyString;
     read_text := fun p =>
       if String.eqb p "cv.txt" then LibOk "Python and SQL"
       else if String.eqb p "job.txt" then LibOk "python sql aws"
       else LibRaise "UnicodeDecodeError";
     PyPDF2 := Some (fun p =>
       if String.eqb p "cv.pdf"
       then LibOk [LibOk (Some "Python "); LibOk None; LibOk (Some "SQL.")]
       else LibRaise "PdfReadError");
     isatty := false;
     stdout_write := fun _ _ => LibOk tt;
     str_number := fun _ => "(score)";
     json_dumps := fun _ _ _ => "(json)" |}.

(** * Proofs *)

(** ** The embedding on known values *)

Example tokenizer_example :
  simple_tokenizer "Looking for a Python_3 dev, C++!"
  = ["looking"; "for"; "a"; "python_3"; "dev"; "c"].
Proof. vm_compute. reflexivity. Qed.

(** [1 / 3] is [0x1.5555555555555p-2]. *)
Example truediv_third : truediv 1 3 = Ok (Float.mk 6004799503160661 (-54)).
Proof. vm_compute. reflexivity. Qed.

Example truediv_zero : truediv 1 0 = Raise ZeroDivisionError.
Proof. reflexivity. Qed.

(** [0.07 * 100] is [7.000000000000001], one unit in the last place above 7. *)
Example mul_seven_hundredths :
  mul_int (Float.of_Q (7 # 100)) 100 = Float.mk (7 * 2 ^ 50 + 1) (-50).
Proof. vm_compute. reflexivity. Qed.

(** [round(1 / 3 * 100, 2)] is [33.33]. *)
Example round_third :
  (do q <- truediv 1 3; Ok (Float.round (mul_int q 100) 2))
  = Ok (Float.of_Q (3333 # 100)).
Proof. vm_compute. reflexivity. Qed.

(** [round] acts on the float, not on the exact percentage: [3 / 20000 * 100]
    is the float just below [0.015] and rounds to [0.01]. *)
Example round_below_tie :
  (do q <- truediv 3 20000; Ok (Float.round (mul_int q 100) 2))
  = Ok (Float.of_Q (1 # 100)).
Proof. vm_compute. reflexivity. Qed.

(** ** The tokenizer *)

Section tokenizer.

Lemma app_empty_r (s : string) : s +:+ "" = s.
Proof. induction s as [|c s IH]; [done|]. unfold String.app in *; simpl. by rewrite IH. Qed.

Lemma app_cons (c : ascii) (s t : string) : String c s +:+ t = String c (s +:+ t).
Proof. done. Qed.

Lemma app_assoc_str (s t u : string) : (s +:+ t) +:+ u = s +:+ t +:+ u.
Proof. induction s as [|c s IH]; [done|]. rewrite !app_cons. by rewrite IH. Qed.

Lemma word_prefix_none (s : string) : Re.word_after s = false -> word_prefix s = "".
Proof. destruct s as [|c s]; [done|]. simpl. by intros ->. Qed.

Lemma skip_word_none (s : string) : Re.word_after s = false -> skip_word s = s.
Proof. destruct s as [|c s]; [done|]. simpl. by intros ->. Qed.

(** The runs of a string that starts with a word character. *)
Lemma runs_word (s : string) :
  Re.word_after s = true -> runs s = word_prefix s :: runs (skip_word s).
Proof.
  induction s as [|c s IH]; [done|]. simpl. intros ->.
  destruct (Re.word_after s) eqn:E.
  - rewrite IH by done. done.
  - rewrite word_prefix_none, skip_word_none by done. done.
Qed.

Lemma runs_nonword (c : ascii) (s : string) :
  Char.is_word c = false -> runs (String c s) = runs s.
Proof. simpl. by intros ->. Qed.

(** *** The matcher finds the longest word at a word start, and nothing
    elsewhere *)

Lemma greedy_word (k : Re.pattern) (rest : string) (prev : option ascii) :
  k = [Re.Boundary] ->
  Re.word_after rest = true ->
  Re.match_here (Re.WordPlus :: k) prev rest = Some (String.length (word_prefix rest)).
Proof.
  intros ->. revert prev. induction rest as [|c rest IH]; [done|].
  intros prev Hc. simpl in Hc. cbn [Re.match_here]. rewrite Hc.
  cbn [word_prefix]. rewrite Hc. cbn [String.length].
  destruct (Re.word_after rest) eqn:E.
  - cbn [Re.match_here] in IH. rewrite (IH (Some c)) by done. done.
  - assert (Hnone : Re.match_here [Re.WordPlus; Re.Boundary] (Some c) rest = None).
    { destruct rest as [|d rest']; [done|]. simpl in E. cbn [Re.match_here]. by rewrite E. }
    cbn [Re.match_here] in Hnone. rewrite Hnone.
    unfold Re.at_boundary. cbn [Re.word_before]. rewrite Hc, E. cbn.
    by rewrite word_prefix_none.
Qed.

Lemma match_word_start (prev : option ascii) (rest : string) :
  Re.word_before prev = false -> Re.word_after rest = true ->
  Re.match_here word_pattern prev rest = Some (String.length (word_prefix rest)).
Proof.
  intros Hp Hr. unfold word_pattern. cbn [Re.match_here].
  unfold Re.at_boundary at 1. rewrite Hp, Hr. cbn [xorb].
  by apply (greedy_word [Re.Boundary]).
Qed.

Lemma match_elsewhere (prev : option ascii) (rest : string) :
  Re.word_before prev = true \/ Re.word_after rest = false ->
  Re.match_here word_pattern prev rest = None.
Proof.
  intros H. unfold word_pattern. cbn [Re.match_here].
  unfold Re.at_boundary at 1.
  destruct (Re.word_before prev) eqn:Hp, (Re.word_after rest) eqn:Hr; cbn [xorb]; try done.
  - destruct rest as [|c rest]; [done|]. simpl in Hr. by rewrite Hr.
  - by destruct H.
Qed.

Lemma take_word_prefix (s : string) :
  Re.take (String.length (word_prefix s)) s = word_prefix s.
Proof.
  induction s as [|c s IH]; [done|]. simpl.
  destruct (Char.is_word c); [|done]. simpl. by rewrite IH.
Qed.

(** The scan of [re.findall], outside a match and inside one. *)
Lemma scan_runs (rest : string) (prev : option ascii) :
  (Re.word_before prev = false -> Re.scan word_pattern prev rest O = runs rest) /\
  (Re.word_before prev = true ->
   Re.scan word_pattern prev rest (String.length (word_prefix rest)) = runs (skip_word rest)).
Proof.
  revert prev. induction rest as [|c rest IH]; intros prev.
  - split; intros Hp; cbn [Re.scan word_prefix String.length].
    + by rewrite match_elsewhere by auto.
    + by rewrite match_elsewhere by auto.
  - destruct (Char.is_word c) eqn:Hc.
    + split; intros Hp.
      * cbn [Re.scan]. rewrite match_word_start by (done || by simpl).
        rewrite take_word_prefix. rewrite runs_word by (by simpl).
        f_equal. cbn [word_prefix skip_word]. rewrite Hc. cbn [String.length Nat.pred].
        by apply IH.
      * cbn [word_prefix skip_word]. rewrite Hc. cbn [String.length Re.scan].
        by apply IH.
    + split; intros Hp.
      * cbn [Re.scan]. rewrite match_elsewhere by (right; by simpl).
        rewrite runs_nonword by done. apply IH. by simpl.
      * cbn [word_prefix skip_word]. rewrite Hc. cbn [String.length Re.scan].
        rewrite match_elsewhere by auto.
        rewrite runs_nonword by done. apply IH. by simpl.
Qed.

Lemma findall_runs (s : string) : Re.findall word_pattern s = runs s.
Proof. unfold Re.findall. by apply scan_runs. Qed.

Lemma simple_tokenizer_runs (text : string) : simple_tokenizer text = runs (lower text).
Proof. apply findall_runs. Qed.

End tokenizer.

(** ** The tokenizer on all of Unicode *)

Section unicode_tokenizer.
Import Unicode.
Context (u : tables).

Local Abbreviation word_after := (Unicode.word_after u).
Local Abbreviation word_last := (Unicode.word_last u).
Local Abbreviation word_prefix := (Unicode.word_prefix u).
Local Abbreviation skip_word := (Unicode.skip_word u).
Local Abbreviation runs := (Unicode.runs u).
Local Abbreviation lower := (Unicode.lower u).

Lemma cp_word_split (s : list N) : s = word_prefix s ++ skip_word s.
Proof.
  induction s as [|c s IH]; [done|]. simpl.
  destruct (is_word u c); [|done]. simpl. by rewrite <- IH.
Qed.

Lemma cp_all_word_prefix (s : list N) : forallb (is_word u) (word_prefix s) = true.
Proof.
  induction s as [|c s IH]; [done|]. simpl.
  destruct (is_word u c) eqn:E; simpl; [|done]. by rewrite E.
Qed.

Lemma cp_word_after_skip (s : list N) : word_after (skip_word s) = false.
Proof. induction s as [|c s IH]; [done|]. simpl. by destruct (is_word u c) eqn:E. Qed.

Lemma cp_skip_word_length (s : list N) : (length (skip_word s) <= length s)%nat.
Proof. induction s as [|c s IH]; [done|]. simpl. destruct (is_word u c); simpl; lia. Qed.

Lemma cp_word_prefix_none (s : list N) : word_after s = false -> word_prefix s = [].
Proof. destruct s as [|c s]; [done|]. simpl. by intros ->. Qed.

Lemma cp_skip_word_none (s : list N) : word_after s = false -> skip_word s = s.
Proof. destruct s as [|c s]; [done|]. simpl. by intros ->. Qed.

Lemma cp_runs_word (s : list N) :
  word_after s = true -> runs s = word_prefix s :: runs (skip_word s).
Proof.
  induction s as [|c s IH]; [done|]. simpl. intros ->.
  destruct (word_after s) eqn:E.
  - by rewrite IH.
  - by rewrite cp_word_prefix_none, cp_skip_word_none.
Qed.

Lemma cp_runs_nonword (c : N) (s : list N) :
  is_word u c = false -> runs (c :: s) = runs s.
Proof. simpl. by intros ->. Qed.

(** The matcher finds the longest word at a word start, and nothing
    elsewhere. *)

Lemma cp_greedy_word (k : Re.pattern) (rest : list N) (prev : option N) :
  k = [Re.Boundary] ->
  word_after rest = true ->
  match_here u (Re.WordPlus :: k) prev rest = Some (length (word_prefix rest)).
Proof.
  intros ->. revert prev. induction rest as [|c rest IH]; [done|].
  intros prev Hc. simpl in Hc. cbn [match_here]. rewrite Hc.
  cbn [Unicode.word_prefix]. rewrite Hc. cbn [length].
  destruct (word_after rest) eqn:E.
  - cbn [match_here] in IH. by rewrite (IH (Some c)).
  - assert (Hnone : match_here u [Re.WordPlus; Re.Boundary] (Some c) rest = None).
    { destruct rest as [|d rest']; [done|]. simpl in E. cbn [match_here]. by rewrite E. }
    cbn [match_here] in Hnone. rewrite Hnone.
    unfold at_boundary. cbn [word_before]. rewrite Hc, E. cbn.
    by rewrite cp_word_prefix_none.
Qed.

Lemma cp_match_word_start (prev : option N) (rest : list N) :
  word_before u prev = false -> word_after rest = true ->
  match_here u word_pattern prev rest = Some (length (word_prefix rest)).
Proof.
  intros Hp Hr. unfold word_pattern. cbn [match_here].
  unfold at_boundary at 1. rewrite Hp, Hr. cbn [xorb].
  by apply (cp_greedy_word [Re.Boundary]).
Qed.

Lemma cp_match_elsewhere (prev : option N) (rest : list N) :
  word_before u prev = true \/ word_after rest = false ->
  match_here u word_pattern prev rest = None.
Proof.
  intros H. unfold word_pattern. cbn [match_here].
  unfold at_boundary at 1.
  destruct (word_before u prev) eqn:Hp, (word_after rest) eqn:Hr; cbn [xorb]; try done.
  - destruct rest as [|c rest]; [done|]. simpl in Hr. by rewrite Hr.
  - by destruct H.
Qed.

Lemma cp_take_word_prefix (s : list N) : take (length (word_prefix s)) s = word_prefix s.
Proof.
  induction s as [|c s IH]; [done|]. simpl.
  destruct (is_word u c); [|done]. simpl. by rewrite IH.
Qed.

Lemma cp_scan_runs (rest : list N) (prev : option N) :
  (word_before u prev = false -> scan u word_pattern prev rest O = runs rest) /\
  (word_before u prev = true ->
   scan u word_pattern prev rest (length (word_prefix rest)) = runs (skip_word rest)).
Proof.
  revert prev. induction rest as [|c rest IH]; intros prev.
  - split; intros Hp; cbn [scan Unicode.word_prefix length]; by rewrite cp_match_elsewhere by auto.
  - destruct (is_word u c) eqn:Hc.
    + split; intros Hp.
      * cbn [scan]. rewrite cp_match_word_start by (done || by simpl).
        rewrite cp_take_word_prefix. rewrite cp_runs_word by (by simpl).
        f_equal. cbn [Unicode.word_prefix Unicode.skip_word]. rewrite Hc.
        cbn [length Nat.pred]. by apply IH.
      * cbn [Unicode.word_prefix Unicode.skip_word]. rewrite Hc. cbn [length scan].
        by apply IH.
    + split; intros Hp.
      * cbn [scan]. rewrite cp_match_elsewhere by (right; by simpl).
        rewrite cp_runs_nonword by done. apply IH. by simpl.
      * cbn [Unicode.word_prefix Unicode.skip_word]. rewrite Hc. cbn [length scan].
        rewrite cp_match_elsewhere by auto.
        rewrite cp_runs_nonword by done. apply IH. by simpl.
Qed.

Lemma cp_simple_tokenizer_runs (text : list N) :
  Unicode.simple_tokenizer u text = runs (lower text).
Proof. unfold Unicode.simple_tokenizer, findall. by apply cp_scan_runs. Qed.

Lemma cp_elem_of_tokenize (t text : list N) :
  t ∈ Unicode.clean_and_tokenize u text <-> t ∈ runs (lower text).
Proof.
  unfold Unicode.clean_and_tokenize.
  by rewrite elem_of_list_to_set, cp_simple_tokenizer_runs.
Qed.

(** Runs and concatenation *)

Lemma cp_word_after_app (a b : list N) :
  word_after (a ++ b) = match a with [] => word_after b | _ => word_after a end.
Proof. by destruct a. Qed.

Lemma cp_runs_app_sep (a b : list N) (c : N) :
  is_word u c = false -> runs (a ++ c :: b) = runs a ++ runs b.
Proof.
  intros Hc. induction a as [|d a IH].
  - by rewrite app_nil_l, cp_runs_nonword.
  - rewrite <- app_comm_cons. cbn [Unicode.runs]. destruct (is_word u d); [|done].
    rewrite cp_word_after_app. destruct a as [|d' a].
    + cbn [Unicode.word_after]. rewrite Hc. by rewrite IH.
    + destruct (word_after (d' :: a)) eqn:E.
      * rewrite IH. by rewrite (cp_runs_word (d' :: a)).
      * by rewrite IH.
Qed.

Lemma cp_word_prefix_app (w s : list N) :
  forallb (is_word u) w = true -> word_after s = false ->
  word_prefix (w ++ s) = w /\ skip_word (w ++ s) = s.
Proof.
  intros Hw Hs. induction w as [|c w IH].
  - by rewrite app_nil_l, cp_word_prefix_none, cp_skip_word_none.
  - simpl in Hw. apply andb_prop in Hw as [Hc Hw].
    rewrite <- app_comm_cons. cbn [Unicode.word_prefix Unicode.skip_word]. rewrite Hc.
    by destruct (IH Hw) as [-> ->].
Qed.

Lemma cp_runs_word_app (w s : list N) :
  w <> [] -> forallb (is_word u) w = true -> word_after s = false ->
  runs (w ++ s) = w :: runs s.
Proof.
  intros Hne Hw Hs. rewrite cp_runs_word.
  - by destruct (cp_word_prefix_app w s Hw Hs) as [-> ->].
  - destruct w as [|c w]; [done|]. simpl in Hw. by apply andb_prop in Hw as [Hc _].
Qed.

Lemma cp_word_last_snoc (pre : list N) :
  word_last pre = false ->
  pre = [] \/ exists pre0 c, pre = pre0 ++ [c] /\ is_word u c = false.
Proof.
  destruct pre as [|c pre _] using rev_ind; [by left|]. intros H. right.
  unfold Unicode.word_last in H. rewrite last_snoc in H. by exists pre, c.
Qed.

Lemma cp_maximal_run_in_runs (t s : list N) : maximal_run u t s -> t ∈ runs s.
Proof.
  intros (pre & post & -> & Hne & Hw & Hpre & Hpost).
  apply cp_word_last_snoc in Hpre as [->|(pre0 & c & -> & Hc)].
  - rewrite app_nil_l, cp_runs_word_app by done. apply list_elem_of_here.
  - rewrite <- app_assoc. cbn [app].
    rewrite cp_runs_app_sep by done. rewrite cp_runs_word_app by done.
    apply elem_of_app. right. apply list_elem_of_here.
Qed.

Lemma cp_in_runs_maximal_run (t s : list N) : t ∈ runs s -> maximal_run u t s.
Proof.
  remember (length s) as n eqn:Hn.
  assert (Hle : (length s <= n)%nat) by lia. clear Hn.
  revert s Hle. induction n as [|n IH]; intros s Hle Hin.
  { destruct s; [|simpl in Hle; lia]. by apply elem_of_nil in Hin. }
  destruct s as [|c s]; [by apply elem_of_nil in Hin|].
  simpl in Hle. destruct (is_word u c) eqn:Hc.
  - rewrite cp_runs_word in Hin by (by simpl).
    apply elem_of_cons in Hin as [->|Hin].
    + exists [], (skip_word (c :: s)). rewrite app_nil_l.
      split; [apply cp_word_split|]. split; [simpl; by rewrite Hc|].
      split; [apply cp_all_word_prefix|]. split; [done|apply cp_word_after_skip].
    + cbn [Unicode.skip_word] in Hin. rewrite Hc in Hin.
      pose proof (cp_skip_word_length s) as Hlen.
      apply IH in Hin as (pre & post & Heq & Hne & Hw & Hpre & Hpost); [|lia].
      exists (word_prefix (c :: s) ++ pre), post.
      split.
      { rewrite <- app_assoc, <- Heq. rewrite (cp_word_split (c :: s)) at 1.
        cbn [Unicode.skip_word]. by rewrite Hc. }
      split; [done|]. split; [done|]. split; [|done].
      destruct pre as [|d pre _] using rev_ind.
      * exfalso. rewrite app_nil_l in Heq.
        pose proof (cp_word_after_skip s) as Hs. rewrite Heq in Hs.
        destruct t as [|e t]; [done|]. simpl in Hw. apply andb_prop in Hw as [He _].
        simpl in Hs. congruence.
      * unfold Unicode.word_last in *. rewrite app_assoc, last_snoc.
        by rewrite last_snoc in Hpre.
  - rewrite cp_runs_nonword in Hin by done.
    apply IH in Hin as (pre & post & Heq & Hne & Hw & Hpre & Hpost); [|lia].
    exists (c :: pre), post. split; [by rewrite <- app_comm_cons, <- Heq|].
    split; [done|]. split; [done|]. split; [|done].
    destruct pre as [|d pre _] using rev_ind.
    + unfold Unicode.word_last. simpl. by rewrite Hc.
    + unfold Unicode.word_last in *. rewrite app_comm_cons, last_snoc.
      by rewrite last_snoc in Hpre.
Qed.

(** Lower case around a separator: the context of a capital sigma never
    reaches across one. *)

Lemma cp_skip_ignorable_sep (a b : list N) (c : N) :
  is_case_ignorable u c = false ->
  skip_ignorable u (a ++ c :: b)
  = match skip_ignorable u a with [] => c :: b | d :: r => d :: r ++ c :: b end.
Proof.
  intros Hc. induction a as [|d a IH].
  - simpl. by rewrite Hc.
  - simpl. destruct (is_case_ignorable u d); [apply IH|done].
Qed.

Lemma cp_final_after_sep (before a b : list N) (c : N) :
  is_cased u c = false -> is_case_ignorable u c = false ->
  in_final_position u before (a ++ c :: b) = in_final_position u before a.
Proof.
  intros Hcased Hign. unfold in_final_position.
  rewrite cp_skip_ignorable_sep by done.
  destruct (skip_ignorable u before); [done|].
  destruct (skip_ignorable u a); [by rewrite Hcased|done].
Qed.

Lemma cp_final_before_sep (a b after : list N) (c : N) :
  is_cased u c = false -> is_case_ignorable u c = false ->
  in_final_position u (a ++ c :: b) after = in_final_position u a after.
Proof.
  intros Hcased Hign. unfold in_final_position.
  rewrite cp_skip_ignorable_sep by done.
  destruct (skip_ignorable u a); [by rewrite Hcased|done].
Qed.

Lemma cp_lower_from_before_sep (a b s : list N) (c : N) :
  is_cased u c = false -> is_case_ignorable u c = false ->
  lower_from u (a ++ c :: b) s = lower_from u a s.
Proof.
  intros Hcased Hign. revert a. induction s as [|d s IH]; intros a; [done|].
  cbn [lower_from]. rewrite cp_final_before_sep by done.
  by rewrite (app_comm_cons a), IH.
Qed.

Lemma cp_lower_from_sep (before s1 s2 : list N) (c : N) :
  separator u c -> c <> capital_sigma ->
  lower_from u before (s1 ++ c :: s2) = lower_from u before s1 ++ c :: lower s2.
Proof.
  intros (Hword & Hcased & Hign & Hlow) Hsigma. revert before.
  induction s1 as [|d s1 IH]; intros before.
  - rewrite app_nil_l. cbn [lower_from].
    destruct (N.eqb_spec c capital_sigma) as [|_]; [done|]. rewrite Hlow. cbn [app].
    f_equal. exact (cp_lower_from_before_sep [] before s2 c Hcased Hign).
  - rewrite <- app_comm_cons. cbn [lower_from].
    rewrite cp_final_after_sep by done. by rewrite IH, <- app_assoc.
Qed.

Lemma cp_lower_sep (s1 s2 : list N) (c : N) :
  separator u c -> c <> capital_sigma ->
  lower (s1 ++ c :: s2) = lower s1 ++ c :: lower s2.
Proof. intros. unfold Unicode.lower at 1 2. by apply cp_lower_from_sep. Qed.

Lemma cp_tokenizer_sep (s1 s2 : list N) (c : N) :
  separator u c -> c <> capital_sigma ->
  Unicode.simple_tokenizer u (s1 ++ c :: s2)
  = Unicode.simple_tokenizer u s1 ++ Unicode.simple_tokenizer u s2.
Proof.
  intros Hsep Hsigma. rewrite !cp_simple_tokenizer_runs, cp_lower_sep by done.
  apply cp_runs_app_sep. by destruct Hsep.
Qed.

End unicode_tokenizer.

(** ** Text of U+0000..U+00FF in the Unicode model *)

Section latin1.
Context (u : Unicode.tables) (Hlatin1 : Unicode.latin1_faithful u).

Lemma code_below_256 (c : ascii) : (Char.code c < 256)%N.
Proof. unfold Char.code. apply N_ascii_bounded. Qed.

Lemma latin1_lower_from (before : list N) (s : string) :
  Unicode.lower_from u before (Unicode.codes s) = Unicode.codes (lower s).
Proof.
  revert before. induction s as [|c s IH]; intros before; [done|].
  cbn [Unicode.codes lower Unicode.lower_from].
  destruct (N.eqb_spec (Char.code c) Unicode.capital_sigma) as [E|_].
  { pose proof (code_below_256 c) as H. rewrite E in H. by vm_compute in H. }
  destruct (Hlatin1 c) as [_ ->]. cbn [app]. by rewrite IH.
Qed.

Lemma latin1_lower (s : string) : Unicode.lower u (Unicode.codes s) = Unicode.codes (lower s).
Proof. apply latin1_lower_from. Qed.

Lemma latin1_word_after (s : string) : Unicode.word_after u (Unicode.codes s) = Re.word_after s.
Proof. destruct s as [|c s]; [done|]. cbn. by destruct (Hlatin1 c) as [-> _]. Qed.

Lemma latin1_runs (s : string) : Unicode.runs u (Unicode.codes s) = Unicode.codes <$> runs s.
Proof.
  induction s as [|c s IH]; [done|]. cbn [Unicode.codes Unicode.runs runs].
  destruct (Hlatin1 c) as [-> _]. rewrite latin1_word_after, IH.
  destruct (Char.is_word c); [|done]. destruct (Re.word_after s); [|done].
  by destruct (runs s).
Qed.

(** On text of U+0000..U+00FF the tokenizer on code points is the tokenizer
    on strings. *)
Lemma latin1_simple_tokenizer (s : string) :
  Unicode.simple_tokenizer u (Unicode.codes s) = Unicode.codes <$> simple_tokenizer s.
Proof.
  by rewrite cp_simple_tokenizer_runs, latin1_lower, latin1_runs, simple_tokenizer_runs.
Qed.

Lemma latin1_clean_and_tokenize (s : string) :
  Unicode.clean_and_tokenize u (Unicode.codes s)
  = list_to_set (Unicode.codes <$> simple_tokenizer s).
Proof. unfold Unicode.clean_and_tokenize. by rewrite latin1_simple_tokenizer. Qed.

End latin1.

Lemma latin1_tables_faithful : Unicode.latin1_faithful Unicode.latin1_tables.
Proof.
  intros c. pose proof (code_below_256 c) as H. apply N.ltb_lt in H.
  unfold Unicode.latin1_tables. cbn [Unicode.is_word Unicode.to_lower_full].
  rewrite H. unfold Char.code. by rewrite ascii_N_embedding.
Qed.

Lemma latin1_tables_space : Unicode.separator Unicode.latin1_tables 32.
Proof. by vm_compute. Qed.

(** ** Binary64 rounding *)

Section float_facts.
Import Float.
Local Open Scope Q_scope.

Lemma rne_cases (x : Q) :
  let f := Qfloor x in
  (rne x = f /\ x - inject_Z f <= 1 # 2 /\ (x - inject_Z f == 1 # 2 -> Z.even f = true)) \/
  (rne x = (f + 1)%Z /\ 1 # 2 <= x - inject_Z f /\ (x - inject_Z f == 1 # 2 -> Z.even f = false)).
Proof.
  intros f. unfold rne. fold f.
  destruct (x - inject_Z f ?= 1 # 2) eqn:E.
  - apply Qeq_alt in E. destruct (Z.even f) eqn:Ev.
    + left. split; [done|]. split; [lra|done].
    + right. split; [done|]. split; [lra|done].
  - apply Qlt_alt in E. left. split; [done|]. split; [lra|]. intros; lra.
  - apply Qgt_alt in E. right. split; [done|]. split; [lra|]. intros; lra.
Qed.

Lemma floor_bounds (x : Q) : inject_Z (Qfloor x) <= x /\ x < inject_Z (Qfloor x) + 1.
Proof.
  split; [apply Qfloor_le|]. pose proof (Qlt_floor x) as H.
  rewrite inject_Z_plus in H. exact H.
Qed.

Lemma rne_near (x : Q) : x - (1 # 2) <= inject_Z (rne x) <= x + (1 # 2).
Proof.
  destruct (rne_cases x) as [(-> & H & _)|(-> & H & _)];
    pose proof (floor_bounds x); rewrite ?inject_Z_plus;
    change (inject_Z 1) with 1; lra.
Qed.

Lemma rne_mono (x y : Q) : x <= y -> (rne x <= rne y)%Z.
Proof.
  intros Hxy. pose proof (Qfloor_resp_le _ _ Hxy) as Hf.
  destruct (rne_cases x) as [(-> & Hx & Ex)|(-> & Hx & Ex)],
           (rne_cases y) as [(-> & Hy & Ey)|(-> & Hy & Ey)]; try lia.
  destruct (Z.eq_dec (Qfloor x) (Qfloor y)) as [E|]; [|lia].
  exfalso. rewrite E in *.
  assert (Hx' : x - inject_Z (Qfloor y) == 1 # 2) by lra.
  assert (Hy' : y - inject_Z (Qfloor y) == 1 # 2) by lra.
  specialize (Ex Hx'). specialize (Ey Hy'). congruence.
Qed.

Lemma rne_Z (k : Z) : rne (inject_Z k) = k.
Proof.
  pose proof (rne_near (inject_Z k)) as [H1 H2].
  assert (inject_Z k - 1 < inject_Z (rne (inject_Z k)) < inject_Z k + 1) as [H3 H4] by lra.
  change 1 with (inject_Z 1) in H3, H4.
  rewrite <- inject_Z_plus in H4. unfold Qminus in H3. change (- inject_Z 1) with (inject_Z (-1)) in H3.
  rewrite <- inject_Z_plus in H3.
  rewrite <- Zlt_Qlt in H3, H4. lia.
Qed.

Global Instance rne_comp : Proper (Qeq ==> eq) rne.
Proof.
  intros x y E. apply Z.le_antisymm; apply rne_mono; lra.
Qed.

(** Powers of two *)

Lemma p2_pos (e : Z) : 0 < 2 ^ e.
Proof. by apply Qpower_0_lt. Qed.

Lemma p2_add (a b : Z) : 2 ^ (a + b) == 2 ^ a * 2 ^ b.
Proof. by apply Qpower_plus. Qed.

Lemma p2_succ (e : Z) : 2 ^ (e + 1) == 2 * 2 ^ e.
Proof. rewrite p2_add. change (2 ^ 1) with 2. ring. Qed.

Lemma p2_le (a b : Z) : (a <= b)%Z -> 2 ^ a <= 2 ^ b.
Proof. intros. by apply Qpower_le_compat_l. Qed.

Lemma p2_inject (n : Z) : (0 <= n)%Z -> inject_Z (2 ^ n) == 2 ^ n.
Proof. intros. by rewrite Zpower_Qpower. Qed.

(** The binade *)

Lemma ilog2_spec (x : Q) : 0 < x -> 2 ^ ilog2 x <= x < 2 ^ (ilog2 x + 1).
Proof.
  intros Hx. unfold ilog2. destruct x as [n d]. cbn [Qnum Qden].
  assert (Hn : (0 < n)%Z) by (unfold Qlt in Hx; simpl in Hx; lia).
  set (a := Z.log2 n). set (b := Z.log2 (Z.pos d)).
  destruct (Z.log2_spec n Hn) as [Ha1 Ha2]. fold a in Ha1, Ha2.
  destruct (Z.log2_spec (Z.pos d) ltac:(lia)) as [Hb1 Hb2]. fold b in Hb1, Hb2.
  assert (0 <= a)%Z by apply Z.log2_nonneg.
  assert (0 <= b)%Z by apply Z.log2_nonneg.
  rewrite Zle_Qle, p2_inject in Ha1, Hb1 by lia.
  rewrite Zlt_Qlt, p2_inject, <- Z.add_1_r, p2_succ in Ha2, Hb2 by lia.
  assert (HE : 2 ^ (a - b) * 2 ^ b == 2 ^ a).
  { rewrite <- p2_add. by replace (a - b + b)%Z with a by lia. }
  assert (HX : (n # d) * inject_Z (Z.pos d) == inject_Z n).
  { rewrite Qmake_Qdiv. field. intros E. unfold Qeq in E. simpl in E. lia. }
  pose proof (p2_pos (a - b)) as HEpos. pose proof (p2_pos b) as HRpos.
  pose proof (p2_pos a) as HPpos.
  assert (Hlo : 2 ^ (a - b - 1) < n # d).
  { assert (E1 : 2 * 2 ^ (a - b - 1) == 2 ^ (a - b)).
    { rewrite <- p2_succ. by replace (a - b - 1 + 1)%Z with (a - b)%Z by lia. }
    generalize dependent (2 ^ (a - b - 1)). generalize dependent (2 ^ (a - b)).
    generalize dependent (2 ^ a). generalize dependent (2 ^ b).
    generalize dependent (inject_Z n). generalize dependent (inject_Z (Z.pos d)).
    generalize dependent (n # d). intros. clear Hx. nra. }
  assert (Hhi : n # d < 2 * 2 ^ (a - b)).
  { generalize dependent (2 ^ (a - b - 1)). generalize dependent (2 ^ (a - b)).
    generalize dependent (2 ^ a). generalize dependent (2 ^ b).
    generalize dependent (inject_Z n). generalize dependent (inject_Z (Z.pos d)).
    generalize dependent (n # d). intros. clear Hx. nra. }
  destruct (Qle_bool (2 ^ (a - b)) (n # d)) eqn:E.
  - apply Qle_bool_iff in E. split; [done|]. by rewrite p2_succ.
  - split; [lra|]. replace (a - b - 1 + 1)%Z with (a - b)%Z by lia.
    apply Qnot_le_lt. intros Hc. apply Qle_bool_iff in Hc. congruence.
Qed.

Lemma ilog2_unique (x : Q) (e : Z) : 2 ^ e <= x < 2 ^ (e + 1) -> ilog2 x = e.
Proof.
  intros [H1 H2]. assert (Hx : 0 < x) by (pose proof (p2_pos e); lra).
  destruct (ilog2_spec x Hx) as [H3 H4].
  destruct (Z.lt_trichotomy (ilog2 x) e) as [Hlt|[Heq|Hgt]]; [|done|].
  - pose proof (p2_le (ilog2 x + 1) e ltac:(lia)). lra.
  - pose proof (p2_le (e + 1) (ilog2 x) ltac:(lia)). lra.
Qed.

Lemma ilog2_eq (x y : Q) : x == y -> 0 < x -> ilog2 x = ilog2 y.
Proof.
  intros E Hx. symmetry. apply ilog2_unique. rewrite <- E. by apply ilog2_spec.
Qed.

Lemma ilog2_mono (x y : Q) : 0 < x -> x <= y -> (ilog2 x <= ilog2 y)%Z.
Proof.
  intros Hx Hxy. destruct (ilog2_spec x Hx) as [H1 H2].
  destruct (ilog2_spec y ltac:(lra)) as [H3 H4].
  destruct (Z.le_gt_cases (ilog2 x) (ilog2 y)) as [|Hgt]; [done|].
  pose proof (p2_le (ilog2 y + 1) (ilog2 x) ltac:(lia)). lra.
Qed.

(** Rounding a positive rational *)

(** The scaled mantissa lies in the binade [2^52, 2^53]. *)
Lemma scaled_bounds (x : Q) :
  0 < x -> 2 ^ 52 <= x * 2 ^ (52 - ilog2 x) < 2 ^ 53.
Proof.
  intros Hx. destruct (ilog2_spec x Hx) as [H1 H2].
  pose proof (p2_pos (52 - ilog2 x)) as Hs.
  assert (E1 : 2 ^ ilog2 x * 2 ^ (52 - ilog2 x) == 2 ^ 52).
  { rewrite <- p2_add. by replace (ilog2 x + (52 - ilog2 x))%Z with 52%Z by lia. }
  assert (E2 : 2 ^ (ilog2 x + 1) * 2 ^ (52 - ilog2 x) == 2 ^ 53).
  { rewrite <- p2_add. by replace (ilog2 x + 1 + (52 - ilog2 x))%Z with 53%Z by lia. }
  split.
  - rewrite <- E1. apply Qmult_le_compat_r; lra.
  - rewrite <- E2. apply Qmult_lt_compat_r; lra.
Qed.

Lemma scaled_mant (x : Q) :
  0 < x -> (2 ^ 52 <= rne (x * 2 ^ (52 - ilog2 x)) <= 2 ^ 53)%Z.
Proof.
  intros Hx. destruct (scaled_bounds x Hx) as [H1 H2]. split.
  - rewrite <- (rne_Z (2 ^ 52)). apply rne_mono. by rewrite p2_inject.
  - rewrite <- (rne_Z (2 ^ 53)). apply rne_mono. rewrite p2_inject by done. lra.
Qed.

Lemma of_pos_value (x : Q) :
  value (of_pos x) == inject_Z (rne (x * 2 ^ (52 - ilog2 x))) * 2 ^ (ilog2 x - 52).
Proof.
  unfold of_pos. destruct (Z.eqb_spec (rne (x * 2 ^ (52 - ilog2 x))) (2 ^ 53)) as [->|]; [|done].
  unfold value. cbn [mant expo].
  replace (ilog2 x - 51)%Z with (1 + (ilog2 x - 52))%Z by lia.
  rewrite p2_add. change (2 ^ 1) with 2.
  rewrite !p2_inject by done. change (2 ^ 53) with (2 * 2 ^ 52). ring.
Qed.

(** A non-zero result is normalised. *)
Lemma of_pos_mant (x : Q) : 0 < x -> (2 ^ 52 <= mant (of_pos x) < 2 ^ 53)%Z.
Proof.
  intros Hx. pose proof (scaled_mant x Hx) as H. unfold of_pos.
  destruct (Z.eqb_spec (rne (x * 2 ^ (52 - ilog2 x))) (2 ^ 53)) as [E|NE]; cbn [mant]; lia.
Qed.

Lemma of_pos_binade (x : Q) :
  0 < x -> 2 ^ ilog2 x <= value (of_pos x) <= 2 ^ (ilog2 x + 1).
Proof.
  intros Hx. rewrite of_pos_value. destruct (scaled_mant x Hx) as [H1 H2].
  rewrite Zle_Qle, p2_inject in H1, H2 by done.
  pose proof (p2_pos (ilog2 x - 52)) as Hs.
  assert (E1 : 2 ^ 52 * 2 ^ (ilog2 x - 52) == 2 ^ ilog2 x).
  { rewrite <- p2_add. by replace (52 + (ilog2 x - 52))%Z with (ilog2 x) by lia. }
  assert (E2 : 2 ^ 53 * 2 ^ (ilog2 x - 52) == 2 ^ (ilog2 x + 1)).
  { rewrite <- p2_add. by replace (53 + (ilog2 x - 52))%Z with (ilog2 x + 1)%Z by lia. }
  split.
  - rewrite <- E1. apply Qmult_le_compat_r; lra.
  - rewrite <- E2. apply Qmult_le_compat_r; lra.
Qed.

Lemma of_pos_mono (x y : Q) :
  0 < x -> x <= y -> value (of_pos x) <= value (of_pos y).
Proof.
  intros Hx Hxy. assert (Hy : 0 < y) by lra.
  pose proof (ilog2_mono x y Hx Hxy) as He.
  destruct (Z.eq_dec (ilog2 x) (ilog2 y)) as [E|NE].
  - rewrite !of_pos_value, E.
    pose proof (p2_pos (ilog2 y - 52)). pose proof (p2_pos (52 - ilog2 y)).
    apply Qmult_le_compat_r; [|lra]. rewrite <- Zle_Qle. apply rne_mono.
    apply Qmult_le_compat_r; lra.
  - destruct (of_pos_binade x Hx) as [_ H1]. destruct (of_pos_binade y Hy) as [H2 _].
    pose proof (p2_le (ilog2 x + 1) (ilog2 y) ltac:(lia)). lra.
Qed.

(** The rounding error is at most half a unit in the last place. *)
Lemma of_pos_error (x : Q) :
  0 < x -> x * (1 - 2 ^ (-53)) <= value (of_pos x) <= x * (1 + 2 ^ (-53)).
Proof.
  intros Hx. rewrite of_pos_value.
  pose proof (rne_near (x * 2 ^ (52 - ilog2 x))) as [H1 H2].
  destruct (ilog2_spec x Hx) as [H3 _].
  pose proof (p2_pos (ilog2 x - 52)) as Hs.
  assert (E1 : 2 ^ (52 - ilog2 x) * 2 ^ (ilog2 x - 52) == 1).
  { rewrite <- p2_add. by replace (52 - ilog2 x + (ilog2 x - 52))%Z with 0%Z by lia. }
  assert (E2 : (1 # 2) * 2 ^ (ilog2 x - 52) == 2 ^ ilog2 x * 2 ^ (-53)).
  { rewrite <- p2_add. replace (ilog2 x - 52)%Z with (1 + (ilog2 x + -53))%Z by lia.
    rewrite p2_add. change (2 ^ 1) with 2. field. }
  assert (Hu : 0 < 2 ^ (-53)) by apply p2_pos.
  generalize dependent (2 ^ (-53)). generalize dependent (2 ^ ilog2 x).
  generalize dependent (2 ^ (ilog2 x - 52)). generalize dependent (2 ^ (52 - ilog2 x)).
  generalize dependent (inject_Z (rne (x * 2 ^ (52 - ilog2 x)))).
  intros m s H1 H2 t Ht E1 p Hp E2 u Hu. split; nra.
Qed.

(** Rounding any rational *)

Lemma Qnum_pos (x : Q) : 0 < x <-> (0 < Qnum x)%Z.
Proof. unfold Qlt. simpl. lia. Qed.

Lemma of_Q_pos (x : Q) : 0 < x -> of_Q x = of_pos x.
Proof. intros Hx%Qnum_pos. unfold of_Q. destruct (Qnum x); done. Qed.

Lemma of_Q_zero (x : Q) : x == 0 -> of_Q x = zero.
Proof. unfold Qeq. simpl. intros H. unfold of_Q. replace (Qnum x) with 0%Z by lia. done. Qed.

Lemma of_pos_comp (x y : Q) : x == y -> 0 < x -> of_pos x = of_pos y.
Proof.
  intros E Hx. unfold of_pos. rewrite <- (ilog2_eq x y E Hx).
  assert (Hm : rne (x * 2 ^ (52 - ilog2 x)) = rne (y * 2 ^ (52 - ilog2 x))) .
  { apply rne_comp. apply Qmult_comp; [exact E|reflexivity]. }
  by rewrite Hm.
Qed.

Global Instance of_Q_comp : Proper (Qeq ==> eq) of_Q.
Proof.
  intros x y E. destruct (Q_dec 0 x) as [[Hx|Hx]|Hx].
  - rewrite !of_Q_pos by lra. by apply of_pos_comp.
  - assert (Hy : y < 0) by lra.
    assert (E' : - x == - y) by lra. assert (Hx' : 0 < - x) by lra.
    unfold of_Q. unfold Qlt in Hx, Hy. simpl in Hx, Hy.
    destruct (Qnum x) eqn:Ex; try lia. destruct (Qnum y) eqn:Ey; try lia.
    rewrite (of_pos_comp (- x) (- y)); done.
  - rewrite !of_Q_zero by lra. done.
Qed.

Lemma of_Q_mono (x y : Q) :
  0 <= x -> x <= y -> value (of_Q x) <= value (of_Q y).
Proof.
  intros Hx Hxy. destruct (Qle_lt_or_eq _ _ Hx) as [Hpos|Hz].
  - rewrite !of_Q_pos by lra. by apply of_pos_mono.
  - rewrite (of_Q_zero x) by lra. change (value zero) with (0 * 1).
    destruct (Qle_lt_or_eq 0 y ltac:(lra)) as [Hy|Hy].
    + rewrite of_Q_pos by done. pose proof (of_pos_binade y Hy) as [H _].
      pose proof (p2_pos (ilog2 y)). lra.
    + rewrite (of_Q_zero y) by lra. change (value zero) with (0 * 1). lra.
Qed.

Lemma of_Q_error (x : Q) :
  0 <= x -> x * (1 - 2 ^ (-53)) <= value (of_Q x) <= x * (1 + 2 ^ (-53)).
Proof.
  intros Hx. destruct (Qle_lt_or_eq _ _ Hx) as [Hpos|Hz].
  - rewrite of_Q_pos by done. by apply of_pos_error.
  - rewrite (of_Q_zero x) by lra. change (value zero) with (0 * 1). rewrite <- Hz. lra.
Qed.

End float_facts.

(** ** Sets and sorted lists *)

Section sets.

Lemma elem_of_sorted (X : gset string) (t : string) : t ∈ sorted X <-> t ∈ X.
Proof. unfold sorted. by rewrite merge_sort_Permutation, elem_of_elements. Qed.

Lemma sorted_empty : sorted ∅ = [].
Proof. unfold sorted. by rewrite elements_empty. Qed.

Lemma sorted_StronglySorted (X : gset string) : StronglySorted String.le (sorted X).
Proof. apply StronglySorted_merge_sort; apply _. Qed.

Lemma sorted_NoDup (X : gset string) : NoDup (sorted X).
Proof. unfold sorted. rewrite merge_sort_Permutation. apply NoDup_elements. Qed.

(** The sorted list does not depend on the order in which the set is
    enumerated. *)
Lemma sorted_any_order (X : gset string) (l : list string) :
  l ≡ₚ elements X -> merge_sort String.le l = sorted X.
Proof.
  intros Hl. apply (Sorted_unique String.le).
  - apply Sorted_merge_sort; apply _.
  - apply Sorted_merge_sort; apply _.
  - unfold sorted. by rewrite !merge_sort_Permutation.
Qed.

Lemma truthy_true (X : gset string) : truthy X = true <-> X ≠ ∅.
Proof. unfold truthy. by rewrite bool_decide_eq_true. Qed.

Lemma truthy_false (X : gset string) : truthy X = false <-> X = ∅.
Proof.
  unfold truthy. rewrite bool_decide_eq_false. split; [|by intros -> ?].
  intros H. by destruct (decide (X = ∅)).
Qed.

Lemma len_nonneg (X : gset string) : (0 <= len X)%Z.
Proof. unfold len. lia. Qed.

Lemma len_pos (X : gset string) : X ≠ ∅ -> (0 < len X)%Z.
Proof.
  intros H. unfold len. assert (size X ≠ 0%nat); [|lia].
  by intros ?%size_empty_inv%leibniz_equiv.
Qed.

Lemma len_subseteq (X Y : gset string) : X ⊆ Y -> (len X <= len Y)%Z.
Proof. intros H%subseteq_size. unfold len. lia. Qed.

End sets.

(** ** The score *)

Section score.
Import Float.
Local Open Scope Q_scope.

Lemma value_zero : value zero == 0.
Proof. reflexivity. Qed.

Lemma value_one : value (of_Q 1) == 1.
Proof. vm_compute. reflexivity. Qed.

Lemma value_hundred : value (of_Z 100) == 100.
Proof. vm_compute. reflexivity. Qed.

Lemma of_Q_nonneg (x : Q) : 0 <= x -> 0 <= value (of_Q x).
Proof.
  intros Hx. rewrite <- value_zero. rewrite <- (of_Q_zero 0) by reflexivity.
  apply of_Q_mono; lra.
Qed.

Lemma of_Q_le_one (x : Q) : 0 <= x <= 1 -> value (of_Q x) <= 1.
Proof. intros [H0 H1]. rewrite <- value_one. by apply of_Q_mono. Qed.

Lemma of_Q_le_hundred (x : Q) : 0 <= x <= 100 -> value (of_Q x) <= 100.
Proof.
  intros [H0 H1]. rewrite <- value_hundred. unfold of_Z.
  apply of_Q_mono; [done|]. exact H1.
Qed.

Lemma mul_int_hundred (q : t) : mul_int q 100 = of_Q (value q * 100).
Proof.
  unfold mul_int, mul. apply of_Q_comp. rewrite value_hundred. reflexivity.
Qed.

(** The quotient of two lengths, [0 <= m <= j], [0 < j]. *)
Lemma ratio_bounds (m j : Z) :
  (0 <= m <= j)%Z -> (0 < j)%Z -> 0 <= inject_Z m / inject_Z j <= 1.
Proof.
  intros [Hm Hmj] Hj. rewrite Zle_Qle in Hm, Hmj. rewrite Zlt_Qlt in Hj.
  change (inject_Z 0) with 0 in *. split.
  - apply Qle_shift_div_l; lra.
  - apply Qle_shift_div_r; lra.
Qed.

Lemma percent_bounds (m j : Z) :
  (0 <= m <= j)%Z -> (0 < j)%Z ->
  0 <= value (mul_int (of_Q (inject_Z m / inject_Z j)) 100) <= 100.
Proof.
  intros Hm Hj. pose proof (ratio_bounds m j Hm Hj) as Hr.
  pose proof (of_Q_nonneg _ (proj1 Hr)) as Hq0.
  pose proof (of_Q_le_one _ Hr) as Hq1.
  rewrite mul_int_hundred. split.
  - apply of_Q_nonneg. lra.
  - apply of_Q_le_hundred. lra.
Qed.

(** The float product is the exact percentage up to two roundings. *)
Lemma percent_error (m j : Z) :
  (0 <= m <= j)%Z -> (0 < j)%Z ->
  Qabs (value (mul_int (of_Q (inject_Z m / inject_Z j)) 100)
        - inject_Z m / inject_Z j * 100) <= 2 ^ (-45).
Proof.
  intros Hm Hj. pose proof (ratio_bounds m j Hm Hj) as Hr.
  pose proof (of_Q_error _ (proj1 Hr)) as Hq.
  pose proof (of_Q_nonneg _ (proj1 Hr)) as Hq0.
  rewrite mul_int_hundred.
  assert (Hp0 : 0 <= value (of_Q (inject_Z m / inject_Z j)) * 100) by lra.
  pose proof (of_Q_error _ Hp0) as Hp.
  apply Qabs_Qle_condition.
  generalize dependent (value (of_Q (value (of_Q (inject_Z m / inject_Z j)) * 100))).
  generalize dependent (value (of_Q (inject_Z m / inject_Z j))).
  generalize dependent (inject_Z m / inject_Z j).
  intros r Hr q Hq Hq0 Hp0 p Hp.
  change (2 ^ (-53)) with (1 # 9007199254740992) in *.
  change (2 ^ (-45)) with (1 # 35184372088832).
  split; nra.
Qed.

(** [round(p, 2)] is the float of a decimal with two places that is
    nearest to [p]. *)
Lemma round_two_places (p : t) :
  exists k : Z,
    Float.round p 2 = of_Q (inject_Z k / 100) /\
    Qabs (inject_Z k / 100 - value p) <= 1 # 200.
Proof.
  exists (rne (value p * 100)). split; [done|].
  pose proof (rne_near (value p * 100)) as [H1 H2].
  apply Qabs_Qle_condition.
  generalize dependent (inject_Z (rne (value p * 100))). intros k H1 H2.
  assert (E : k / 100 == k * (1 # 100)) by (by field).
  rewrite E. split; lra.
Qed.

(** Below [2^37] job tokens the float error is too small to move the
    product across a rounding boundary of the exact percentage: a decimal
    nearest to the product is then nearest to the exact percentage. *)
Lemma nearest_to_exact (m j k : Z) (p : Q) :
  (0 < j < 2 ^ 37)%Z ->
  Qabs (p - inject_Z m / inject_Z j * 100) <= 2 ^ (-45) ->
  Qabs (inject_Z k / 100 - p) <= 1 # 200 ->
  Qabs (inject_Z k / 100 - inject_Z m / inject_Z j * 100) <= 1 # 200.
Proof.
  intros [Hj0 Hj1] Hp Hk.
  apply Qabs_Qle_condition in Hp as [Hp1 Hp2].
  apply Qabs_Qle_condition in Hk as [Hk1 Hk2].
  apply Qabs_Qle_condition.
  assert (HJ0 : 0 < inject_Z j) by (by rewrite Zlt_Qlt in Hj0).
  assert (HJ1 : inject_Z j < 137438953472) by (by rewrite Zlt_Qlt in Hj1).
  assert (Hx : inject_Z m / inject_Z j * 100 * inject_Z j == 100 * inject_Z m)
    by (field; lra).
  assert (Ek : inject_Z k / 100 == inject_Z k * (1 # 100)) by (by field).
  rewrite Ek in *. clear Ek.
  change (2 ^ (-45)) with (1 # 35184372088832) in *.
  assert (Hz : (- (j + 1) < 2 * (k * j + - (10000 * m)) < j + 1)%Z).
  { rewrite !Zlt_Qlt.
    repeat (rewrite inject_Z_plus || rewrite inject_Z_mult || rewrite inject_Z_opp).
    change (inject_Z 1) with 1. change (inject_Z 2) with 2.
    change (inject_Z 10000) with 10000.
    remember (inject_Z m / inject_Z j * 100) as x eqn:Ex. clear Ex.
    remember (inject_Z j) as J eqn:EJ. clear EJ.
    remember (inject_Z m) as M eqn:EM. clear EM.
    remember (inject_Z k) as K eqn:EK. clear EK.
    assert (A : (K * (1 # 100) - x) * J <= ((1 # 200) + (1 # 35184372088832)) * J)
      by (apply Qmult_le_compat_r; lra).
    assert (B : (- ((1 # 200) + (1 # 35184372088832))) * J <= (K * (1 # 100) - x) * J)
      by (apply Qmult_le_compat_r; lra).
    split; lra. }
  assert (Hz' : (- j <= 2 * (k * j + - (10000 * m)) <= j)%Z) by lia.
  rewrite !Zle_Qle in Hz'.
  repeat (rewrite inject_Z_plus in Hz' || rewrite inject_Z_mult in Hz'
          || rewrite inject_Z_opp in Hz').
  change (inject_Z 2) with 2 in Hz'. change (inject_Z 10000) with 10000 in Hz'.
  clear Hz Hp1 Hp2 Hk1 Hk2 Hj0 Hj1.
  remember (inject_Z m / inject_Z j * 100) as x eqn:Ex. clear Ex.
  remember (inject_Z j) as J eqn:EJ. clear EJ.
  remember (inject_Z m) as M eqn:EM. clear EM.
  remember (inject_Z k) as K eqn:EK. clear EK.
  assert (A : - (1 # 200) * J <= (K * (1 # 100) - x) * J <= (1 # 200) * J) by lra.
  destruct A as [A1 A2]. apply Qmult_le_r in A1, A2; [|done..]. lra.
Qed.

Lemma round_bounds (p : t) :
  0 <= value p <= 100 -> 0 <= value (Float.round p 2) <= 100.
Proof.
  intros [H0 H1]. unfold Float.round.
  change (inject_Z (10 ^ Z.of_nat 2)) with 100.
  assert (Hk : (0 <= rne (value p * 100) <= 10000)%Z).
  { split.
    - rewrite <- (rne_Z 0). apply rne_mono. change (inject_Z 0) with 0. lra.
    - rewrite <- (rne_Z 10000). apply rne_mono. change (inject_Z 10000) with 10000. lra. }
  destruct Hk as [Hk0 Hk1]. rewrite Zle_Qle in Hk0, Hk1.
  change (inject_Z 0) with 0 in Hk0. change (inject_Z 10000) with 10000 in Hk1.
  assert (Hd : 0 <= inject_Z (rne (value p * 100)) / 100 <= 100).
  { split; [apply Qle_shift_div_l|apply Qle_shift_div_r]; lra. }
  split; [apply of_Q_nonneg|apply of_Q_le_hundred]; tauto.
Qed.

End score.

Section score_ties.
Import Float.
Local Open Scope Q_scope.

(** Away from a tie, an integer within one half of [y] is the rounding of
    [y]. *)
Lemma rne_unique (y : Q) (k : Z) :
  y - (1 # 2) <= inject_Z k <= y + (1 # 2) ->
  ~ (y - inject_Z (Qfloor y) == 1 # 2) ->
  k = rne y.
Proof.
  intros [H1 H2] Htie. pose proof (floor_bounds y) as [Hf1 Hf2].
  assert (Hk : (Qfloor y + - (1) < k)%Z /\ (k < Qfloor y + 2)%Z).
  { rewrite !Zlt_Qlt, !inject_Z_plus, inject_Z_opp.
    change (inject_Z 1) with 1. change (inject_Z 2) with 2. split; lra. }
  destruct (rne_cases y) as [(-> & Hy & _)|(-> & Hy & _)].
  - assert (Hlt : (k < Qfloor y + 1)%Z); [|lia].
    rewrite Zlt_Qlt, inject_Z_plus. change (inject_Z 1) with 1.
    destruct (Qlt_le_dec (y - inject_Z (Qfloor y)) (1 # 2)) as [Hlt|Hge]; [lra|].
    exfalso. apply Htie. lra.
  - assert (Hlt : (Qfloor y < k)%Z); [|lia].
    rewrite Zlt_Qlt.
    destruct (Qlt_le_dec (1 # 2) (y - inject_Z (Qfloor y))) as [Hlt|Hge]; [lra|].
    exfalso. apply Htie. lra.
Qed.

End score_ties.

(** ** The comparator *)

Section comparator.

(** The comparator never raises; its result in closed form. *)
Lemma compare_keywords_eq (resume_text job_desc_text : string) :
  let resume_words := clean_and_tokenize resume_text in
  let job_keywords := clean_and_tokenize job_desc_text in
  compare_keywords resume_text job_desc_text =
  Ok (round (if truthy job_keywords
             then Flt (mul_int (Float.of_Q (inject_Z (len (resume_words ∩ job_keywords))
                                            / inject_Z (len job_keywords))) 100)
             else Int 0) 2,
      sorted (resume_words ∩ job_keywords),
      sorted (job_keywords ∖ resume_words)).
Proof.
  intros R J. unfold compare_keywords. fold R J.
  destruct (truthy J) eqn:E; [|done].
  apply truthy_true, len_pos in E. unfold truediv.
  destruct (Z.eqb_spec (len J) 0) as [E0|_]; [lia|]. done.
Qed.

Lemma truediv_ok (a b : Z) :
  b ≠ 0%Z -> truediv a b = Ok (Float.of_Q (inject_Z a / inject_Z b)).
Proof.
  intros H. unfold truediv.
  destruct (Z.eqb_spec b 0) as [E|_]; [contradiction|reflexivity].
Qed.

Lemma matched_len (R J : gset string) : (0 <= len (R ∩ J) <= len J)%Z.
Proof. split; [apply len_nonneg|]. apply len_subseteq. set_solver. Qed.

(** Only the job tokens of the résumé reach the result. *)
Lemma compare_keywords_agree (resume1 resume2 job_desc_text : string) :
  (forall t, t ∈ clean_and_tokenize job_desc_text ->
             (t ∈ clean_and_tokenize resume1 <-> t ∈ clean_and_tokenize resume2)) ->
  compare_keywords resume1 job_desc_text = compare_keywords resume2 job_desc_text.
Proof.
  intros Hagree. rewrite !compare_keywords_eq.
  set (J := clean_and_tokenize job_desc_text) in *.
  assert (E1 : clean_and_tokenize resume1 ∩ J = clean_and_tokenize resume2 ∩ J).
  { apply set_eq. intros t. rewrite !elem_of_intersection. specialize (Hagree t). tauto. }
  assert (E2 : J ∖ clean_and_tokenize resume1 = J ∖ clean_and_tokenize resume2).
  { apply set_eq. intros t. rewrite !elem_of_difference. specialize (Hagree t). tauto. }
  by rewrite E1, E2.
Qed.

End comparator.

(** * The claims *)

(** C1, as amended.  For every pair of texts [compare_keywords] returns a
    score, and the score is exactly [0] when [jobTokens] is empty.
    Otherwise the score is the float of a decimal [k / 100] with two places
    that lies within half a hundredth, and the float error [2^-45], of the
    exact percentage [(|matched| / |jobTokens|) * 100], where [matched] is
    the intersection of the two token sets.  Below [2^37] job tokens the
    decimal is within half a hundredth of the exact percentage, and it is
    the exact percentage rounded to two places whenever the exact percentage
    is not halfway between two hundredths.  At such a tie the code returns
    one of the two neighbours, by the binary64 error of the quotient and the
    product, and not by a rule on the exact percentage. *)
Theorem score_rounds_exact_percentage (resume_text job_desc_text : string) :
  let jobTokens := clean_and_tokenize job_desc_text in
  let matched := clean_and_tokenize resume_text ∩ jobTokens in
  exists score matchedKeywords missingKeywords,
    compare_keywords resume_text job_desc_text
      = Ok (score, matchedKeywords, missingKeywords) /\
    (jobTokens = ∅ -> score = Int 0) /\
    (jobTokens ≠ ∅ ->
     exists k : Z,
       score = Flt (Float.of_Q (inject_Z k / 100)) /\
       (Qabs (inject_Z k / 100 - exact_percentage matched jobTokens)
          <= (1 # 200) + 2 ^ (-45))%Q /\
       ((len jobTokens < 2 ^ 37)%Z ->
        (Qabs (inject_Z k / 100 - exact_percentage matched jobTokens) <= 1 # 200)%Q /\
        (~ at_tie (exact_percentage matched jobTokens) ->
         (inject_Z k / 100 == rounded_percentage matched jobTokens)%Q))).
Proof.
  intros J M. rewrite compare_keywords_eq. fold J M.
  eexists _, _, _. split; [reflexivity|]. split.
  - intros E. apply truthy_false in E. by rewrite E.
  - intros NE. pose proof (len_pos J NE) as Hj.
    apply truthy_true in NE. rewrite NE.
    pose proof (percent_error (len M) (len J) (matched_len _ _) Hj) as Hp.
    destruct (round_two_places
                (mul_int (Float.of_Q (inject_Z (len M) / inject_Z (len J))) 100))
      as (k & Hk & Hnear).
    exists k. split; [cbn [round]; by rewrite Hk|].
    fold (exact_percentage M J) in Hp. split.
    + apply Qabs_Qle_condition in Hp as [Hp1 Hp2].
      apply Qabs_Qle_condition in Hnear as [Hn1 Hn2].
      apply Qabs_Qle_condition. split; lra.
    + intros Hlt.
      assert (Hhalf : (Qabs (inject_Z k / 100 - exact_percentage M J) <= 1 # 200)%Q).
      { unfold exact_percentage.
        by apply (nearest_to_exact (len M) (len J) k
                 (Float.value (mul_int (Float.of_Q (inject_Z (len M) / inject_Z (len J))) 100))
                 (conj Hj Hlt)). }
      split; [done|]. intros Htie. unfold rounded_percentage.
      rewrite <- (rne_unique (exact_percentage M J * 100) k); [reflexivity| |exact Htie].
      apply Qabs_Qle_condition in Hhalf as [H1 H2].
      assert (E : (inject_Z k / 100 == inject_Z k * (1 # 100))%Q) by (by field).
      rewrite E in H1, H2. split; lra.
Qed.

(** C1, as stated, fails: the score is not always the exact percentage
    rounded to two places.  Of the 160 tokens of [job_160], [resume_23] has
    23 and [resume_49] has 49: the exact percentages are 14.375 and 30.625,
    which round to 14.38 and 30.62 (ties to even; any rule that rounds all
    ties one way gives 14.38 and 30.63, or 14.37 and 30.62).  The scores are
    14.37 and 30.63: [23 / 160 * 100] is a float just below 14.375, and
    [49 / 160 * 100] a float just above 30.625. *)
Lemma score_not_rounded_exact_percentage :
  (exists matchedKeywords missingKeywords,
     compare_keywords resume_23 job_160
     = Ok (Flt (Float.of_Q (1437 # 100)), matchedKeywords, missingKeywords)) /\
  (exact_percentage (clean_and_tokenize resume_23 ∩ clean_and_tokenize job_160)
                    (clean_and_tokenize job_160) == 14375 # 1000)%Q /\
  (rounded_percentage (clean_and_tokenize resume_23 ∩ clean_and_tokenize job_160)
                      (clean_and_tokenize job_160) == 1438 # 100)%Q /\
  Float.of_Q (1437 # 100) <> Float.of_Q (1438 # 100) /\
  (exists matchedKeywords missingKeywords,
     compare_keywords resume_49 job_160
     = Ok (Flt (Float.of_Q (3063 # 100)), matchedKeywords, missingKeywords)) /\
  (exact_percentage (clean_and_tokenize resume_49 ∩ clean_and_tokenize job_160)
                    (clean_and_tokenize job_160) == 30625 # 1000)%Q /\
  (rounded_percentage (clean_and_tokenize resume_49 ∩ clean_and_tokenize job_160)
                      (clean_and_tokenize job_160) == 3062 # 100)%Q /\
  Float.of_Q (3063 # 100) <> Float.of_Q (3062 # 100).
Proof.
  split; [eexists _, _; vm_compute; reflexivity|].
  split; [vm_compute; reflexivity|]. split; [vm_compute; reflexivity|].
  split; [vm_compute; discriminate|].
  split; [eexists _, _; vm_compute; reflexivity|].
  split; [vm_compute; reflexivity|]. split; [vm_compute; reflexivity|].
  vm_compute; discriminate.
Qed.

(** C2. The matched and the missing keywords are disjoint, both are job
    tokens, and together they are all the job tokens. *)
Theorem matched_missing_partition (resume_text job_desc_text : string) :
  let jobTokens := clean_and_tokenize job_desc_text in
  exists score matchedKeywords missingKeywords,
    compare_keywords resume_text job_desc_text
      = Ok (score, matchedKeywords, missingKeywords) /\
    let matched : gset string := list_to_set matchedKeywords in
    let missing : gset string := list_to_set missingKeywords in
    matched ∩ missing = ∅ /\
    matched ⊆ jobTokens /\
    missing ⊆ jobTokens /\
    matched ∪ missing = jobTokens.
Proof.
  intros J. rewrite compare_keywords_eq. fold J.
  eexists _, _, _. split; [reflexivity|]. cbn zeta.
  set (R := clean_and_tokenize resume_text).
  assert (E1 : list_to_set (sorted (R ∩ J)) = R ∩ J).
  { apply set_eq. intros t. by rewrite elem_of_list_to_set, elem_of_sorted. }
  assert (E2 : list_to_set (sorted (J ∖ R)) = J ∖ R).
  { apply set_eq. intros t. by rewrite elem_of_list_to_set, elem_of_sorted. }
  rewrite E1, E2. split; [set_solver|]. split; [set_solver|]. split; [set_solver|].
  apply set_eq. intros t. rewrite elem_of_union, elem_of_intersection, elem_of_difference.
  destruct (decide (t ∈ R)); tauto.
Qed.

(** C3, as amended.  When the two texts tokenize to the same set, no keyword
    is missing, and the score is [100.0] provided that set is not empty; it
    is [0] when the set is empty. *)
Theorem identical_tokens_full_score (resume_text job_desc_text : string)
  (Hsame : clean_and_tokenize resume_text = clean_and_tokenize job_desc_text) :
  exists score matchedKeywords,
    compare_keywords resume_text job_desc_text = Ok (score, matchedKeywords, []) /\
    (clean_and_tokenize job_desc_text ≠ ∅ -> score = Flt (Float.of_Z 100)) /\
    (clean_and_tokenize job_desc_text = ∅ -> score = Int 0).
Proof.
  rewrite compare_keywords_eq, Hsame.
  set (J := clean_and_tokenize job_desc_text) in *.
  replace (J ∩ J) with J by set_solver. replace (J ∖ J) with (∅ : gset string) by set_solver.
  rewrite sorted_empty. eexists _, _. split; [reflexivity|]. split.
  - intros Hnonempty. pose proof (len_pos J Hnonempty) as Hj.
    apply truthy_true in Hnonempty. rewrite Hnonempty. cbn [round]. f_equal.
    assert (E : Float.of_Q (inject_Z (len J) / inject_Z (len J)) = Float.of_Q 1).
    { apply of_Q_comp. field. rewrite Zlt_Qlt in Hj. change (inject_Z 0) with 0%Q in Hj.
      intros E0. rewrite E0 in Hj. by apply Qlt_irrefl in Hj. }
    rewrite E. vm_compute. reflexivity.
  - intros Hempty%truthy_false. by rewrite Hempty.
Qed.

Lemma identical_tokens_full_score_witness :
  clean_and_tokenize "SQL, Python" = clean_and_tokenize "python sql" /\
  exists score matchedKeywords,
    compare_keywords "SQL, Python" "python sql" = Ok (score, matchedKeywords, []) /\
    (clean_and_tokenize "python sql" ≠ ∅ -> score = Flt (Float.of_Z 100)) /\
    (clean_and_tokenize "python sql" = ∅ -> score = Int 0).
Proof.
  assert (H : clean_and_tokenize "SQL, Python" = clean_and_tokenize "python sql")
    by (vm_compute; reflexivity).
  split; [exact H|].
  exact (identical_tokens_full_score "SQL, Python" "python sql" H).
Defined.

(** C3, as stated, fails: two empty texts tokenize to the same (empty) set
    and the score is [0], not [100]. *)
Lemma identical_tokens_empty_score_zero :
  clean_and_tokenize "" = clean_and_tokenize "" /\
  compare_keywords "" "" = Ok (Int 0, [], []) /\
  ~ (number_value (Int 0) == 100)%Q.
Proof. split; [reflexivity|]. split; [vm_compute; reflexivity|]. intros E. discriminate E. Qed.

(** C4. When the job description has no token, and so for the empty job
    description, the score is [0] and both keyword lists are empty.  No
    input makes the comparator raise: the division, which would raise on
    such a job description, is not evaluated. *)
Theorem empty_job_zero_score (resume_text job_desc_text : string)
  (Hempty : clean_and_tokenize job_desc_text = ∅) :
  compare_keywords resume_text job_desc_text = Ok (Int 0, [], []) /\
  compare_keywords resume_text "" = Ok (Int 0, [], []) /\
  truediv (len (clean_and_tokenize resume_text ∩ clean_and_tokenize job_desc_text))
          (len (clean_and_tokenize job_desc_text)) = Raise ZeroDivisionError /\
  forall resume_text' job_desc_text' e,
    compare_keywords resume_text' job_desc_text' ≠ Raise e.
Proof.
  assert (Hgen : forall r j, clean_and_tokenize j = ∅ ->
                   compare_keywords r j = Ok (Int 0, [], [])).
  { intros r j E. rewrite compare_keywords_eq, E.
    replace (clean_and_tokenize r ∩ ∅) with (∅ : gset string) by set_solver.
    replace (∅ ∖ clean_and_tokenize r) with (∅ : gset string) by set_solver.
    by rewrite sorted_empty. }
  split; [by apply Hgen|]. split; [by apply Hgen|]. split.
  - by rewrite Hempty.
  - intros r j e. by rewrite compare_keywords_eq.
Qed.

Lemma empty_job_zero_score_witness :
  clean_and_tokenize "?!, ..." = ∅ /\
  compare_keywords "Python developer" "?!, ..." = Ok (Int 0, [], []).
Proof.
  assert (H : clean_and_tokenize "?!, ..." = ∅) by (vm_compute; reflexivity).
  split; [exact H|].
  exact (proj1 (empty_job_zero_score "Python developer" "?!, ..." H)).
Defined.

(** C5. For every text, a sequence of code points of any kind, the tokens
    are exactly the maximal contiguous runs of word characters of the
    lowercased text: [re.findall] with [\b\w+\b] finds these runs and nothing
    else, whatever the Unicode tables are.  So no token is empty and a token
    has word characters only, and two texts with the same lower case have
    the same tokens.  When the tables are right on U+0000..U+00FF, as
    those of the interpreter are, ["Python"] and ["python"] both have the
    one token ["python"], and ["C++"] has the one token ["c"]. *)
Theorem unicode_tokens_are_maximal_runs (u : Unicode.tables) (text : list N) :
  (forall t, t ∈ Unicode.clean_and_tokenize u text
             <-> Unicode.maximal_run u t (Unicode.lower u text)) /\
  (forall t, t ∈ Unicode.clean_and_tokenize u text ->
             t <> [] /\ forallb (Unicode.is_word u) t = true) /\
  (forall text', Unicode.lower u text' = Unicode.lower u text ->
                 Unicode.clean_and_tokenize u text' = Unicode.clean_and_tokenize u text) /\
  (Unicode.latin1_faithful u ->
   Unicode.clean_and_tokenize u (Unicode.codes "Python") = {[Unicode.codes "python"]} /\
   Unicode.clean_and_tokenize u (Unicode.codes "python") = {[Unicode.codes "python"]} /\
   Unicode.clean_and_tokenize u (Unicode.codes "C++") = {[Unicode.codes "c"]}).
Proof.
  assert (Hiff : forall t, t ∈ Unicode.clean_and_tokenize u text
                           <-> Unicode.maximal_run u t (Unicode.lower u text)).
  { intros t. rewrite cp_elem_of_tokenize. split.
    - apply cp_in_runs_maximal_run.
    - apply cp_maximal_run_in_runs. }
  split; [exact Hiff|]. split.
  { intros t (pre & post & _ & Hne & Hw & _)%Hiff. by split. }
  split.
  { intros text' E. unfold Unicode.clean_and_tokenize, Unicode.simple_tokenizer. by rewrite E. }
  intros Hlatin1. rewrite !(latin1_clean_and_tokenize u Hlatin1).
  split; [|split]; vm_compute; reflexivity.
Qed.

Lemma unicode_tokens_are_maximal_runs_witness :
  Unicode.latin1_faithful Unicode.latin1_tables /\
  Unicode.clean_and_tokenize Unicode.latin1_tables (Unicode.codes "C++")
  = {[Unicode.codes "c"]}.
Proof.
  split; [exact latin1_tables_faithful|].
  exact (proj2 (proj2 (proj2 (proj2 (proj2
           (unicode_tokens_are_maximal_runs Unicode.latin1_tables
              (Unicode.codes "C++ or Python"))))
           latin1_tables_faithful))).
Defined.

(** C6. The matched and the missing keywords are each in lexicographic
    order, without repetition, and are the same lists whatever the order in
    which the underlying sets are enumerated. *)
Theorem keywords_sorted (resume_text job_desc_text : string) :
  exists score matchedKeywords missingKeywords,
    compare_keywords resume_text job_desc_text
      = Ok (score, matchedKeywords, missingKeywords) /\
    StronglySorted String.le matchedKeywords /\ NoDup matchedKeywords /\
    StronglySorted String.le missingKeywords /\ NoDup missingKeywords /\
    (forall l, l ≡ₚ elements (clean_and_tokenize resume_text
                               ∩ clean_and_tokenize job_desc_text) ->
               merge_sort String.le l = matchedKeywords) /\
    (forall l, l ≡ₚ elements (clean_and_tokenize job_desc_text
                               ∖ clean_and_tokenize resume_text) ->
               merge_sort String.le l = missingKeywords).
Proof.
  rewrite compare_keywords_eq. eexists _, _, _. split; [reflexivity|].
  split; [apply sorted_StronglySorted|]. split; [apply sorted_NoDup|].
  split; [apply sorted_StronglySorted|]. split; [apply sorted_NoDup|].
  split; apply sorted_any_order.
Qed.

(** C7. The scenario of the specification: ten job tokens, four of them
    matched, score [40.0], and the six missing keywords in alphabetical
    order. *)
Theorem scenario_python_developer :
  let resume_text := "Python developer with SQL experience" in
  let job_desc_text := "Looking for a Python developer with AWS and SQL skills" in
  clean_and_tokenize job_desc_text
    = list_to_set ["looking"; "for"; "a"; "python"; "developer"; "with"; "aws";
                   "and"; "sql"; "skills"] /\
  size (clean_and_tokenize job_desc_text) = 10%nat /\
  clean_and_tokenize resume_text ∩ clean_and_tokenize job_desc_text
    = list_to_set ["python"; "developer"; "with"; "sql"] /\
  compare_keywords resume_text job_desc_text
    = Ok (Flt (Float.of_Z 40),
          ["developer"; "python"; "sql"; "with"],
          ["a"; "and"; "aws"; "for"; "looking"; "skills"]) /\
  (number_value (Flt (Float.of_Z 40)) == 40)%Q.
Proof. cbn zeta. repeat split; vm_compute; reflexivity. Qed.

(** C8. The score lies between [0] and [100]. *)
Theorem score_in_range (resume_text job_desc_text : string) :
  exists score matchedKeywords missingKeywords,
    compare_keywords resume_text job_desc_text
      = Ok (score, matchedKeywords, missingKeywords) /\
    (0 <= number_value score <= 100)%Q.
Proof.
  rewrite compare_keywords_eq. eexists _, _, _. split; [reflexivity|].
  set (R := clean_and_tokenize resume_text). set (J := clean_and_tokenize job_desc_text).
  destruct (truthy J) eqn:E.
  - apply truthy_true, len_pos in E. cbn [round number_value].
    apply round_bounds, percent_bounds; [apply matched_len|done].
  - cbn [round number_value]. change (inject_Z 0) with 0%Q. lra.
Qed.

(** C9. A space between two texts keeps their tokens apart, on all of
    Unicode: the tokens of [s1 + " " + s2] are those of [s1] together with
    those of [s2].  What is used of the space is that it is no word
    character, that it is its own lower case, and that it is neither cased
    nor case-ignorable, so that the search for what stands around a capital
    sigma stops at it and finds no letter there: the lower case of
    [s1 + " " + s2] is that of [s1], a space, and that of [s2]. *)
Theorem unicode_tokenize_concat_space (u : Unicode.tables)
  (Hspace : Unicode.separator u 32) (s1 s2 : list N) :
  Unicode.clean_and_tokenize u (s1 ++ Unicode.codes " " ++ s2)
  = Unicode.clean_and_tokenize u s1 ∪ Unicode.clean_and_tokenize u s2.
Proof.
  unfold Unicode.clean_and_tokenize. change (Unicode.codes " " ++ s2) with (32%N :: s2).
  rewrite cp_tokenizer_sep by done. by rewrite list_to_set_app_L.
Qed.

Lemma unicode_tokenize_concat_space_witness :
  Unicode.separator Unicode.latin1_tables 32 /\
  Unicode.clean_and_tokenize Unicode.latin1_tables
    (Unicode.codes "Python SQL" ++ Unicode.codes " " ++ Unicode.codes "AWS, sql")
  = Unicode.clean_and_tokenize Unicode.latin1_tables (Unicode.codes "Python SQL")
    ∪ Unicode.clean_and_tokenize Unicode.latin1_tables (Unicode.codes "AWS, sql").
Proof.
  split; [exact latin1_tables_space|].
  exact (unicode_tokenize_concat_space Unicode.latin1_tables latin1_tables_space
           (Unicode.codes "Python SQL") (Unicode.codes "AWS, sql")).
Defined.

(** C10. Two résumés with the same token set get the same score and the
    same keyword lists for a given job description.  More is true: the same
    holds as soon as the two résumés contain the same job tokens, so the
    résumé tokens that are not job tokens have no influence on the result. *)
Theorem resume_matters_through_job_tokens (resume1 resume2 job_desc_text : string) :
  (clean_and_tokenize resume1 = clean_and_tokenize resume2 ->
   compare_keywords resume1 job_desc_text = compare_keywords resume2 job_desc_text) /\
  ((forall t, t ∈ clean_and_tokenize job_desc_text ->
              (t ∈ clean_and_tokenize resume1 <-> t ∈ clean_and_tokenize resume2)) ->
   compare_keywords resume1 job_desc_text = compare_keywords resume2 job_desc_text).
Proof.
  split.
  - intros E. apply compare_keywords_agree. intros t _. by rewrite E.
  - apply compare_keywords_agree.
Qed.

Lemma resume_matters_through_job_tokens_witness :
  clean_and_tokenize "Python, SQL and COBOL" ≠ clean_and_tokenize "sql python: fortran!" /\
  compare_keywords "Python, SQL and COBOL" "python sql aws"
  = compare_keywords "sql python: fortran!" "python sql aws".
Proof.
  split.
  { intros E. apply (f_equal elements) in E. vm_compute in E. discriminate E. }
  apply (proj2 (resume_matters_through_job_tokens
                  "Python, SQL and COBOL" "sql python: fortran!" "python sql aws")).
  intros t Ht.
  assert (E : clean_and_tokenize "Python, SQL and COBOL" ∩ clean_and_tokenize "python sql aws"
              = clean_and_tokenize "sql python: fortran!" ∩ clean_and_tokenize "python sql aws")
    by (vm_compute; reflexivity).
  split; intros H.
  - assert (H' : t ∈ clean_and_tokenize "Python, SQL and COBOL" ∩ clean_and_tokenize "python sql aws")
      by (apply elem_of_intersection; done).
    rewrite E in H'. by apply elem_of_intersection in H' as [? _].
  - assert (H' : t ∈ clean_and_tokenize "sql python: fortran!" ∩ clean_and_tokenize "python sql aws")
      by (apply elem_of_intersection; done).
    rewrite <- E in H'. by apply elem_of_intersection in H' as [? _].
Defined.

(** * Further properties *)

(** ** The tokenizer and the score *)

Section score_more.
Import Float.
Local Open Scope Q_scope.

Lemma of_Q_ratio_mono (m1 m2 j : Z) :
  (0 <= m1 <= m2)%Z -> (0 < j)%Z ->
  value (of_Q (inject_Z m1 / inject_Z j)) <= value (of_Q (inject_Z m2 / inject_Z j)).
Proof.
  intros [H0 H12] Hj. rewrite Zle_Qle in H0, H12. rewrite Zlt_Qlt in Hj.
  change (inject_Z 0) with 0 in *.
  assert (Hinv : 0 < / inject_Z j) by (by apply Qinv_lt_0_compat).
  apply of_Q_mono.
  - apply Qle_shift_div_l; lra.
  - unfold Qdiv. apply Qmult_le_compat_r; lra.
Qed.

Lemma mul_int_mono (q1 q2 : t) :
  0 <= value q1 -> value q1 <= value q2 ->
  value (mul_int q1 100) <= value (mul_int q2 100).
Proof. intros H0 H12. rewrite !mul_int_hundred. apply of_Q_mono; lra. Qed.

Lemma round_mono (p1 p2 : t) :
  0 <= value p1 -> value p1 <= value p2 ->
  value (Float.round p1 2) <= value (Float.round p2 2).
Proof.
  intros H0 H12. unfold Float.round. change (inject_Z (10 ^ Z.of_nat 2)) with 100.
  assert (Hk0 : (0 <= rne (value p1 * 100))%Z).
  { rewrite <- (rne_Z 0). apply rne_mono. change (inject_Z 0) with 0. lra. }
  assert (Hk : (rne (value p1 * 100) <= rne (value p2 * 100))%Z) by (apply rne_mono; lra).
  rewrite Zle_Qle in Hk0, Hk. change (inject_Z 0) with 0 in Hk0.
  apply of_Q_mono.
  - apply Qle_shift_div_l; lra.
  - unfold Qdiv. apply Qmult_le_compat_r; [done|]. by vm_compute.
Qed.

(** The score as a function of the two lengths. *)
Lemma score_mono (m1 m2 j : Z) :
  (0 <= m1 <= m2)%Z -> (0 < j)%Z ->
  value (Float.round (mul_int (of_Q (inject_Z m1 / inject_Z j)) 100) 2)
  <= value (Float.round (mul_int (of_Q (inject_Z m2 / inject_Z j)) 100) 2).
Proof.
  intros Hm Hj.
  assert (Hq0 : 0 <= value (of_Q (inject_Z m1 / inject_Z j))).
  { apply of_Q_nonneg. destruct Hm as [Hm _]. rewrite Zle_Qle in Hm. rewrite Zlt_Qlt in Hj.
    change (inject_Z 0) with 0 in *. apply Qle_shift_div_l; lra. }
  pose proof (of_Q_ratio_mono m1 m2 j Hm Hj) as Hq.
  apply round_mono.
  - rewrite mul_int_hundred. apply of_Q_nonneg. lra.
  - by apply mul_int_mono.
Qed.

Lemma score_full (j : Z) :
  (0 < j)%Z ->
  Float.round (mul_int (of_Q (inject_Z j / inject_Z j)) 100) 2 = of_Z 100.
Proof.
  intros Hj.
  assert (E : of_Q (inject_Z j / inject_Z j) = of_Q 1).
  { apply of_Q_comp. field. rewrite Zlt_Qlt in Hj. change (inject_Z 0) with 0 in Hj.
    intros E0. rewrite E0 in Hj. by apply Qlt_irrefl in Hj. }
  rewrite E. vm_compute. reflexivity.
Qed.

Lemma score_none (j : Z) :
  Float.round (mul_int (of_Q (inject_Z 0 / inject_Z j)) 100) 2 = zero.
Proof.
  assert (E : of_Q (inject_Z 0 / inject_Z j) = zero).
  { apply of_Q_zero. unfold Qdiv. change (inject_Z 0) with 0. ring. }
  rewrite E. vm_compute. reflexivity.
Qed.

Lemma rne_bounds (y : Q) (lo hi : Z) :
  inject_Z lo - (1 # 2) < y -> y < inject_Z hi + (1 # 2) -> (lo <= rne y <= hi)%Z.
Proof.
  intros Hlo Hhi. pose proof (rne_near y) as [H1 H2].
  assert (A : inject_Z (lo - 1) < inject_Z (rne y)).
  { unfold Z.sub. rewrite inject_Z_plus, inject_Z_opp. change (inject_Z 1) with 1. lra. }
  assert (B : inject_Z (rne y) < inject_Z (hi + 1)).
  { rewrite inject_Z_plus. change (inject_Z 1) with 1. lra. }
  rewrite <- Zlt_Qlt in A, B. lia.
Qed.

Lemma round_of_hundredths (p : t) (lo hi : Z) :
  (0 <= lo)%Z ->
  inject_Z lo - (1 # 2) < value p * 100 -> value p * 100 < inject_Z hi + (1 # 2) ->
  value (of_Q (inject_Z lo / 100)) <= value (Float.round p 2)
    <= value (of_Q (inject_Z hi / 100)).
Proof.
  intros H0 Hlo Hhi. destruct (rne_bounds _ _ _ Hlo Hhi) as [Hk1 Hk2].
  unfold Float.round. change (inject_Z (10 ^ Z.of_nat 2)) with 100.
  rewrite Zle_Qle in H0, Hk1, Hk2. change (inject_Z 0) with 0 in H0.
  assert (Hc : 0 <= / 100) by (by vm_compute).
  split; apply of_Q_mono.
  - apply Qle_shift_div_l; lra.
  - unfold Qdiv. apply Qmult_le_compat_r; [lra|exact Hc].
  - apply Qle_shift_div_l; lra.
  - unfold Qdiv. apply Qmult_le_compat_r; [lra|exact Hc].
Qed.

Lemma percent_gap (x J M : Q) :
  0 < J -> J <= 19999 -> 1 <= M -> x * J == 100 * M -> 100 # 19999 <= x.
Proof.
  intros HJ0 HJ1 HM Hx.
  destruct (Qlt_le_dec x (100 # 19999)) as [Hlt|]; [|done]. exfalso.
  assert (A : x * J < (100 # 19999) * J) by (apply Qmult_lt_compat_r; lra).
  lra.
Qed.

(** Below 20000 job tokens one missing token keeps the score under 100, and
    one matched token lifts it above 0. *)
Lemma score_below_full (m j : Z) :
  (0 <= m < j)%Z -> (j < 20000)%Z ->
  value (Float.round (mul_int (of_Q (inject_Z m / inject_Z j)) 100) 2) < 100.
Proof.
  intros [Hm0 Hmj] Hj.
  pose proof (percent_error m j ltac:(lia) ltac:(lia)) as Herr.
  pose proof (percent_bounds m j ltac:(lia) ltac:(lia)) as [Hp0 _].
  apply Qabs_Qle_condition in Herr as [_ Herr].
  change (2 ^ (-45)) with (1 # 35184372088832) in Herr.
  assert (HM : (m <= j + -1)%Z) by lia.
  assert (HJ0 : (0 < j)%Z) by lia. assert (HJ1 : (j <= 19999)%Z) by lia.
  rewrite Zle_Qle, inject_Z_plus in HM. rewrite Zlt_Qlt in HJ0. rewrite Zle_Qle in HJ1.
  change (inject_Z (-1)) with (-1) in HM. change (inject_Z 0) with 0 in HJ0.
  change (inject_Z 19999) with 19999 in HJ1.
  assert (Hx : inject_Z m / inject_Z j * 100 * inject_Z j == 100 * inject_Z m) by (field; lra).
  remember (inject_Z m / inject_Z j * 100) as x eqn:Ex. clear Ex.
  assert (Hgap : 100 # 19999 <= 100 - x).
  { apply (percent_gap _ (inject_Z j) (inject_Z j - inject_Z m)); [done|done|lra|].
    assert (E : (100 - x) * inject_Z j == 100 * inject_Z j - x * inject_Z j) by ring.
    rewrite E, Hx. ring. }
  destruct (round_of_hundredths (mul_int (of_Q (inject_Z m / inject_Z j)) 100) 0 9999)
    as [_ Hhi]; [done| |  |].
  - change (inject_Z 0) with 0. lra.
  - change (inject_Z 9999) with 9999. lra.
  - eapply Qle_lt_trans; [exact Hhi|]. by vm_compute.
Qed.

Lemma score_above_none (m j : Z) :
  (0 < m <= j)%Z -> (j < 20000)%Z ->
  0 < value (Float.round (mul_int (of_Q (inject_Z m / inject_Z j)) 100) 2).
Proof.
  intros [Hm0 Hmj] Hj.
  pose proof (percent_error m j ltac:(lia) ltac:(lia)) as Herr.
  pose proof (percent_bounds m j ltac:(lia) ltac:(lia)) as [_ Hp1].
  apply Qabs_Qle_condition in Herr as [Herr _].
  change (2 ^ (-45)) with (1 # 35184372088832) in Herr.
  assert (HM : (1 <= m)%Z) by lia.
  assert (HJ0 : (0 < j)%Z) by lia. assert (HJ1 : (j <= 19999)%Z) by lia.
  rewrite Zle_Qle in HM. rewrite Zlt_Qlt in HJ0. rewrite Zle_Qle in HJ1.
  change (inject_Z 1) with 1 in HM. change (inject_Z 0) with 0 in HJ0.
  change (inject_Z 19999) with 19999 in HJ1.
  assert (Hx : inject_Z m / inject_Z j * 100 * inject_Z j == 100 * inject_Z m) by (field; lra).
  pose proof (percent_gap _ _ _ HJ0 HJ1 HM Hx) as Hgap.
  remember (inject_Z m / inject_Z j * 100) as x eqn:Ex. clear Ex.
  destruct (round_of_hundredths (mul_int (of_Q (inject_Z m / inject_Z j)) 100) 1 10000)
    as [Hlo _]; [done| |  |].
  - change (inject_Z 1) with 1. lra.
  - change (inject_Z 10000) with 10000. lra.
  - eapply Qlt_le_trans; [|exact Hlo]. by vm_compute.
Qed.

End score_more.

Section comparator_more.

Lemma sorted_nil_iff (X : gset string) : sorted X = [] <-> X = ∅.
Proof.
  split; [|intros ->; apply sorted_empty].
  intros E. apply set_eq. intros t. rewrite <- elem_of_sorted, E. set_solver.
Qed.

Lemma length_sorted (X : gset string) : length (sorted X) = size X.
Proof. unfold sorted. by rewrite merge_sort_Permutation. Qed.

Lemma list_to_set_nil_iff (l : list string) : (list_to_set l : gset string) = ∅ <-> l = [].
Proof.
  split; [|by intros ->]. destruct l as [|t l]; [done|]. intros E.
  assert (H : t ∈ (list_to_set (t :: l) : gset string)) by (apply elem_of_list_to_set; left).
  rewrite E in H. set_solver.
Qed.

End comparator_more.

(** X3. The tokens of two texts joined by a separator, on all of Unicode.
    A separator is a code point that is no word character, is its own lower
    case and is neither cased nor case-ignorable, such as a comma or a
    newline.  The token list of [s1 + c + s2] is then the token list of [s1]
    followed by that of [s2]: no token is lost, fused or changed, not even
    through the rule for the capital sigma. *)
Theorem unicode_tokenize_around_separator (u : Unicode.tables) (c : N)
  (Hsep : Unicode.separator u c) (Hsigma : c <> Unicode.capital_sigma)
  (s1 s2 : list N) :
  Unicode.simple_tokenizer u (s1 ++ c :: s2)
  = Unicode.simple_tokenizer u s1 ++ Unicode.simple_tokenizer u s2.
Proof. by apply cp_tokenizer_sep. Qed.

Lemma unicode_tokenize_around_separator_witness :
  Unicode.separator Unicode.latin1_tables 44 /\
  44%N <> Unicode.capital_sigma /\
  Unicode.simple_tokenizer Unicode.latin1_tables
    (Unicode.codes "python" ++ 44%N :: Unicode.codes "SQL")
  = Unicode.simple_tokenizer Unicode.latin1_tables (Unicode.codes "python")
    ++ Unicode.simple_tokenizer Unicode.latin1_tables (Unicode.codes "SQL").
Proof.
  assert (H : Unicode.separator Unicode.latin1_tables 44) by (by vm_compute).
  assert (H' : 44%N <> Unicode.capital_sigma) by discriminate.
  split; [exact H|]. split; [exact H'|].
  exact (unicode_tokenize_around_separator Unicode.latin1_tables 44 H H'
           (Unicode.codes "python") (Unicode.codes "SQL")).
Defined.

(** X4. A résumé that has every job token scores exactly [100.0], with all
    job tokens matched and none missing, whatever else it contains; a résumé
    that has no job token scores 0, with nothing matched and all job tokens
    missing. *)
Theorem score_extremes (resume_text job_desc_text : string) :
  let R := clean_and_tokenize resume_text in
  let J := clean_and_tokenize job_desc_text in
  exists score matchedKeywords missingKeywords,
    compare_keywords resume_text job_desc_text
      = Ok (score, matchedKeywords, missingKeywords) /\
    (J ≠ ∅ -> J ⊆ R ->
     score = Flt (Float.of_Z 100) /\ matchedKeywords = sorted J /\ missingKeywords = []) /\
    (R ∩ J = ∅ ->
     (number_value score == 0)%Q /\ matchedKeywords = [] /\ missingKeywords = sorted J).
Proof.
  intros R J. rewrite compare_keywords_eq. fold R J.
  eexists _, _, _. split; [reflexivity|]. split.
  - intros Hne Hsub. pose proof (len_pos J Hne) as Hj.
    apply truthy_true in Hne. rewrite Hne.
    replace (R ∩ J) with J by set_solver. replace (J ∖ R) with (∅ : gset string) by set_solver.
    cbn [round]. by rewrite score_full, sorted_empty.
  - intros Hdisj. rewrite Hdisj. replace (J ∖ R) with J by set_solver.
    rewrite sorted_empty. split; [|done].
    destruct (truthy J); [|reflexivity]. cbn [round number_value].
    change (len ∅) with 0%Z. rewrite score_none. reflexivity.
Qed.

(** X5. Below 20000 job tokens the converse holds too: the score is 100 only
    when nothing is missing (and there is a job token), and it is 0 only
    when nothing is matched.  Rounding to two places cannot hide one token
    out of fewer than 20000. *)
Theorem score_extremes_small_job (resume_text job_desc_text : string)
  (Hsmall : (len (clean_and_tokenize job_desc_text) < 20000)%Z) :
  exists score matchedKeywords missingKeywords,
    compare_keywords resume_text job_desc_text
      = Ok (score, matchedKeywords, missingKeywords) /\
    ((number_value score == 100)%Q <->
       missingKeywords = [] /\ clean_and_tokenize job_desc_text ≠ ∅) /\
    ((number_value score == 0)%Q <-> matchedKeywords = []).
Proof.
  rewrite compare_keywords_eq.
  set (R := clean_and_tokenize resume_text). set (J := clean_and_tokenize job_desc_text) in *.
  eexists _, _, _. split; [reflexivity|]. rewrite !sorted_nil_iff.
  pose proof (matched_len R J) as [Hm0 Hmj].
  assert (Hsize : (len (R ∩ J) = len J <-> J ∖ R = ∅)).
  { split.
    - intros E. apply set_eq. intros t. split; [|set_solver]. intros Ht. exfalso.
      assert (Hsub : R ∩ J ⊂ J).
      { split; [set_solver|]. intros Hc. set_solver. }
      apply subset_size in Hsub. unfold len in E. lia.
    - intros E. replace (R ∩ J) with J; [done|]. apply set_eq. intros t.
      rewrite elem_of_intersection. split; [|tauto]. intros Ht. split; [|done].
      destruct (decide (t ∈ R)) as [|Hn]; [done|]. exfalso.
      assert (Hd : t ∈ J ∖ R) by (by apply elem_of_difference).
      rewrite E in Hd. by apply elem_of_empty in Hd. }
  assert (Hzero : (len (R ∩ J) = 0%Z <-> R ∩ J = ∅)).
  { unfold len. split.
    - intros E. assert (Hs : size (R ∩ J) = 0%nat) by lia.
      by apply size_empty_inv, leibniz_equiv in Hs.
    - by intros ->. }
  destruct (truthy J) eqn:E.
  - apply truthy_true in E. pose proof (len_pos J E) as Hj. cbn [round number_value]. split.
    + split.
      * intros H100. split; [|done]. apply Hsize.
        destruct (Z.eq_dec (len (R ∩ J)) (len J)) as [|NE]; [done|]. exfalso.
        assert (Hrange : (0 <= len (R ∩ J) < len J)%Z) by lia.
        pose proof (score_below_full _ _ Hrange Hsmall) as Hlt.
        rewrite H100 in Hlt. by apply Qlt_irrefl in Hlt.
      * intros [Hmiss _]. apply Hsize in Hmiss. rewrite Hmiss, score_full by done.
        by vm_compute.
    + split.
      * intros H0. apply Hzero.
        destruct (Z.eq_dec (len (R ∩ J)) 0) as [|NE]; [done|]. exfalso.
        assert (Hrange : (0 < len (R ∩ J) <= len J)%Z) by lia.
        pose proof (score_above_none _ _ Hrange Hsmall) as Hlt.
        rewrite H0 in Hlt. by apply Qlt_irrefl in Hlt.
      * intros Hnone. rewrite Hnone. change (len ∅) with 0%Z. by rewrite score_none.
  - apply truthy_false in E. cbn [round number_value]. split.
    + split; [intros H; by vm_compute in H|]. by intros [_ ?].
    + split; [|done]. intros _. rewrite E. set_solver.
Qed.

Lemma score_extremes_small_job_witness :
  (len (clean_and_tokenize "python sql aws") < 20000)%Z /\
  exists score matchedKeywords missingKeywords,
    compare_keywords "Python, SQL" "python sql aws"
      = Ok (score, matchedKeywords, missingKeywords) /\
    ((number_value score == 100)%Q <->
       missingKeywords = [] /\ clean_and_tokenize "python sql aws" ≠ ∅) /\
    ((number_value score == 0)%Q <-> matchedKeywords = []).
Proof.
  assert (H : (len (clean_and_tokenize "python sql aws") < 20000)%Z) by (by vm_compute).
  split; [exact H|].
  exact (score_extremes_small_job "Python, SQL" "python sql aws" H).
Defined.

(** X6. A résumé whose token set grows never scores lower against the same
    job description: what was matched stays matched and nothing new goes
    missing. *)
Theorem more_resume_tokens_never_lower (resume1 resume2 job_desc_text : string)
  (Hsub : clean_and_tokenize resume1 ⊆ clean_and_tokenize resume2) :
  exists score1 matched1 missing1 score2 matched2 missing2,
    compare_keywords resume1 job_desc_text = Ok (score1, matched1, missing1) /\
    compare_keywords resume2 job_desc_text = Ok (score2, matched2, missing2) /\
    (number_value score1 <= number_value score2)%Q /\
    matched1 ⊆ matched2 /\ missing2 ⊆ missing1.
Proof.
  rewrite !compare_keywords_eq.
  set (R1 := clean_and_tokenize resume1) in *. set (R2 := clean_and_tokenize resume2) in *.
  set (J := clean_and_tokenize job_desc_text).
  eexists _, _, _, _, _, _. split; [reflexivity|]. split; [reflexivity|].
  split; [|split].
  - destruct (truthy J) eqn:E; [|apply Qle_refl].
    apply truthy_true, len_pos in E. cbn [round number_value].
    apply score_mono; [|done]. split; [apply len_nonneg|].
    apply len_subseteq. set_solver.
  - intros t. rewrite !elem_of_sorted. set_solver.
  - intros t. rewrite !elem_of_sorted. set_solver.
Qed.

Lemma more_resume_tokens_never_lower_witness :
  clean_and_tokenize "Python" ⊆ clean_and_tokenize "python, sql and more" /\
  exists score1 matched1 missing1 score2 matched2 missing2,
    compare_keywords "Python" "python sql aws" = Ok (score1, matched1, missing1) /\
    compare_keywords "python, sql and more" "python sql aws"
      = Ok (score2, matched2, missing2) /\
    (number_value score1 <= number_value score2)%Q /\
    matched1 ⊆ matched2 /\ missing2 ⊆ missing1.
Proof.
  assert (H : clean_and_tokenize "Python" ⊆ clean_and_tokenize "python, sql and more").
  { apply elem_of_subseteq. intros t Ht.
    assert (E : clean_and_tokenize "Python" ∩ clean_and_tokenize "python, sql and more"
                = clean_and_tokenize "Python") by (vm_compute; reflexivity).
    rewrite <- E in Ht. by apply elem_of_intersection in Ht as [_ ?]. }
  split; [exact H|].
  exact (more_resume_tokens_never_lower "Python" "python, sql and more" "python sql aws" H).
Defined.

(** X7. The matched keywords are exactly the job tokens found in the
    résumé, the missing ones exactly those not found, and the two lists
    together have as many entries as there are job tokens. *)
Theorem keyword_lists_split_job_tokens (resume_text job_desc_text : string) :
  let R := clean_and_tokenize resume_text in
  let J := clean_and_tokenize job_desc_text in
  exists score matchedKeywords missingKeywords,
    compare_keywords resume_text job_desc_text
      = Ok (score, matchedKeywords, missingKeywords) /\
    (forall t, t ∈ matchedKeywords <-> t ∈ R /\ t ∈ J) /\
    (forall t, t ∈ missingKeywords <-> t ∈ J /\ t ∉ R) /\
    (length matchedKeywords + length missingKeywords = size J)%nat.
Proof.
  intros R J. rewrite compare_keywords_eq. fold R J.
  eexists _, _, _. split; [reflexivity|]. split; [|split].
  - intros t. by rewrite elem_of_sorted, elem_of_intersection.
  - intros t. by rewrite elem_of_sorted, elem_of_difference.
  - rewrite !length_sorted. rewrite <- size_union by set_solver. f_equal.
    apply set_eq. intros t. rewrite elem_of_union, elem_of_intersection, elem_of_difference.
    destruct (decide (t ∈ R)); tauto.
Qed.

(** ** The command line program *)

Section program.

Lemma extract_pages_cases (pages : list (lib (option string))) (text : string) (c : console) :
  (exists s, extract_pages text pages c = (c, Returned s)) \/
  (exists name, extract_pages text pages c = (c, Raised (LibraryError name))).
Proof.
  revert text. induction pages as [|page pages IH]; intros text.
  - left. by eexists.
  - cbn [extract_pages]. unfold io_bind. destruct page as [t|name]; cbn.
    + apply IH.
    + right. by eexists.
Qed.

Lemma compare_keywords_ok (resume_text job_desc_text : string) :
  exists score matched missing,
    compare_keywords resume_text job_desc_text = Ok (score, matched, missing).
Proof. rewrite compare_keywords_eq. by eexists _, _, _. Qed.

Lemma post_ret {A : Type} (a : A) c (Q : console -> outcome A -> Prop) :
  Q c (Returned a) -> post (ret a) c Q.
Proof. done. Qed.

Lemma post_raise {A : Type} (e : error) c (Q : console -> outcome A -> Prop) :
  Q c (Raised e) -> post (raise e) c Q.
Proof. done. Qed.

Lemma post_bind {A B : Type} (m : io A) (k : A -> io B) c
      (Q : console -> outcome B -> Prop) :
  post m c (fun c' o => match o with
                        | Returned a => post (k a) c' Q
                        | Raised e => Q c' (Raised e)
                        end) ->
  post (io_bind m k) c Q.
Proof. unfold post, io_bind. by destruct (m c) as [c' [a|e]]. Qed.

Lemma post_emit (e : event) c (Q : console -> outcome unit -> Prop) :
  Q {| stdin := stdin c; trace := trace c ++ [e] |} (Returned tt) -> post (emit e) c Q.
Proof. done. Qed.

Lemma post_print (w : world) (text : string) c (Q : console -> outcome unit -> Prop) :
  Q {| stdin := stdin c; trace := trace c ++ [Print text] |} (Returned tt) ->
  (forall name,
     Q {| stdin := stdin c; trace := trace c ++ [PrintFailed text] |}
       (Raised (LibraryError name))) ->
  post (print w text) c Q.
Proof.
  intros H1 H2. unfold post, print.
  destruct (stdout_write w (trace c) text) as [[]|name]; [exact H1|apply H2].
Qed.

Lemma post_input (prompt : string) c (Q : console -> outcome string -> Prop) :
  (stdin c = "" ->
   Q {| stdin := stdin c; trace := trace c ++ [Prompt prompt] |} (Raised EOFError)) ->
  (forall line rest, stdin c <> "" -> read_line (stdin c) = (line, rest) ->
   Q {| stdin := rest; trace := trace c ++ [Prompt prompt] |} (Returned line)) ->
  post (input prompt) c Q.
Proof.
  intros H1 H2. unfold post, input, io_bind, emit. cbn -[read_line].
  destruct (stdin c) as [|a s] eqn:E; [by apply H1|].
  destruct (read_line (String a s)) as [line rest] eqn:El. by apply H2.
Qed.

Lemma post_stdin_read c (Q : console -> outcome string -> Prop) :
  Q {| stdin := ""; trace := trace c ++ [ReadStdin] |} (Returned (stdin c)) ->
  post stdin_read c Q.
Proof. done. Qed.

Lemma post_except {A : Type} (m h : io A) c (Q : console -> outcome A -> Prop) :
  post m c (fun c' o => match o with
                        | Raised EOFError => post h c' Q
                        | _ => Q c' o
                        end) ->
  post (except_EOFError m h) c Q.
Proof. unfold post, except_EOFError. by destruct (m c) as [c' [a|[]]]. Qed.

Lemma post_of_lib {A : Type} (r : lib A) c (Q : console -> outcome A -> Prop) :
  (forall a, r = LibOk a -> Q c (Returned a)) ->
  (forall name, r = LibRaise name -> Q c (Raised (LibraryError name))) ->
  post (of_lib r) c Q.
Proof. intros H1 H2. destruct r; [by apply H1|by apply H2]. Qed.

Lemma post_extract_pages pages text c (Q : console -> outcome string -> Prop) :
  (forall s, Q c (Returned s)) -> (forall name, Q c (Raised (LibraryError name))) ->
  post (extract_pages text pages) c Q.
Proof.
  intros H1 H2. unfold post.
  destruct (extract_pages_cases pages text c) as [[s ->]|[name ->]]; [apply H1|apply H2].
Qed.

Lemma post_compare (resume_text job_desc_text : string) c
      (Q : console -> outcome (number * list string * list string) -> Prop) :
  (forall score matched missing,
     compare_keywords resume_text job_desc_text = Ok (score, matched, missing) ->
     Q c (Returned (score, matched, missing))) ->
  post (of_result (compare_keywords resume_text job_desc_text)) c Q.
Proof.
  intros H. destruct (compare_keywords_ok resume_text job_desc_text) as (s & mk & ms & E).
  rewrite E. by apply H.
Qed.

End program.

Ltac io_step :=
  lazymatch goal with
  | |- post (io_bind _ _) _ _ => apply post_bind
  | |- post (ret _) _ _ => apply post_ret
  | |- post (raise _) _ _ => apply post_raise
  | |- post (sys_exit _) _ _ => apply post_raise
  | |- post (emit _) _ _ => apply post_emit
  | |- post (print _ _) _ _ => apply post_print; [|intros ?]
  | |- post (input _) _ _ => apply post_input; [intros ?|intros ? ? ? ?]
  | |- post stdin_read _ _ => apply post_stdin_read
  | |- post (except_EOFError _ _) _ _ => apply post_except
  | |- post (of_lib _) _ _ => apply post_of_lib; [intros ? ?|intros ? ?]
  | |- post (extract_pages _ _) _ _ => apply post_extract_pages; [intros ?|intros ?]
  | |- post (of_result (compare_keywords _ _)) _ _ => apply post_compare; intros ? ? ? ?
  | |- post (read_text_file _ _) _ _ => unfold read_text_file
  | |- post (extract_text_from_pdf _ _) _ _ => unfold extract_text_from_pdf
  | |- post (match ?x with _ => _ end) _ _ => destruct x eqn:?
  | |- post (let '(_, _) := ?x in _) _ _ => destruct x as [[? ?] ?]
  end; cbn beta iota zeta.

Ltac close_trace :=
  cbn [trace stdin]; rewrite <- ?app_assoc;
  first [ eexists; split; [reflexivity|] | exists []; split; [by rewrite app_nil_r|] ];
  cbn.


(** X12. [main] opens a file, as text or as PDF, only after [exists()] said
    that it exists. *)
Theorem main_opens_only_existing_files (w : world) (args : arguments) (c : console) :
  post (main w args) c (fun c' _ =>
    exists evs,
      trace c' = trace c ++ evs /\
      Forall (fun path => exists_ w path = true) (opened evs)).
Proof.
  unfold main. repeat io_step.
  all: close_trace; repeat constructor; done.
Qed.

(** X13. When the résumé is given as an option and the job description by
    [--job-text] or [--job-file], [main] neither prompts nor reads the
    standard input, whose content is left as it was. *)
Theorem main_leaves_stdin_alone (w : world) (args : arguments) (c : console)
  (Hresume : given (resume args) <> None)
  (Hjob : given (job_text args) <> None \/ given (job_file args) <> None) :
  post (main w args) c (fun c' _ =>
    stdin c' = stdin c /\
    exists evs, trace c' = trace c ++ evs /\
      forall e, e ∈ evs -> e <> ReadStdin /\ forall text, e <> Prompt text).
Proof.
  unfold main. repeat io_step.
  all: try (by destruct Hjob).
  all: split; [done|]; close_trace.
  all: intros e He; repeat (apply elem_of_cons in He as [->|He]); try done.
  all: by apply elem_of_nil in He.
Qed.

(** X14. A résumé given as an option whose suffix is neither [.pdf] nor
    [.txt] in any case is never compared: the run does not return, no PDF is
    opened, and the only text file that may have been read is the job
    file. *)
Theorem unsupported_resume_not_opened (w : world) (args : arguments) (c : console)
  (r : string) (Hresume : given (resume args) = Some r)
  (Hpdf : lower (suffix w (Path w r)) <> ".pdf")
  (Htxt : lower (suffix w (Path w r)) <> ".txt") :
  post (main w args) c (fun c' o =>
    (forall u, o <> Returned u) /\
    exists evs, trace c' = trace c ++ evs /\
      (forall path, OpenPdf path ∉ evs) /\
      (forall path, ReadText path ∈ evs ->
         given (job_text args) = None /\
         exists f, given (job_file args) = Some f /\ path = Path w f)).
Proof.
  unfold main. rewrite Hresume. repeat io_step.
  all: try match goal with
           | H : String.eqb _ _ = true |- _ => apply String.eqb_eq in H; done
           end.
  all: split; [done|]; close_trace.
  all: split; [intros path He|intros path He].
  all: repeat (apply elem_of_cons in He as [He|He]; try discriminate He).
  all: try (by apply elem_of_nil in He).
  all: injection He as ->; split; [done|]; by eexists.
Qed.


Lemma io_bind_eq {A B : Type} (m : io A) (k : A -> io B) (c : console) :
  io_bind m k c = match m c with
                  | (c', Returned a) => k a c'
                  | (c', Raised e) => (c', Raised e)
                  end.
Proof. reflexivity. Qed.


(** X16. When PyPDF2 could not be imported, a run on a résumé whose suffix
    is not [.pdf] is the same as with PyPDF2. *)
Theorem pdf_library_only_for_pdf (w : world) (args : arguments) (c : console)
  (r : string) (Hresume : given (resume args) = Some r)
  (Hnotpdf : lower (suffix w (Path w r)) <> ".pdf") :
  main (without_pdf w) args c = main w args c.
Proof.
  unfold main. rewrite Hresume. rewrite !(io_bind_eq (ret r) _ c).
  cbn [ret without_pdf Path exists_ suffix isatty stdout_write str_number json_dumps].
  apply String.eqb_neq in Hnotpdf. rewrite Hnotpdf. reflexivity.
Qed.

Lemma extract_pages_ok (texts : list (option string)) (text : string) (c : console) :
  extract_pages text (LibOk <$> texts) c
  = (c, Returned (text +:+ concat_str (default EmptyString <$> texts))).
Proof.
  revert text. induction texts as [|t texts IH]; intros text.
  - cbn. by rewrite app_empty_r.
  - cbn [fmap list_fmap extract_pages concat_str]. rewrite io_bind_eq. cbn [of_lib ret].
    rewrite IH. by rewrite app_assoc_str.
Qed.

Lemma extract_pages_fail (texts : list (option string)) (name : string)
      (rest : list (lib (option string))) (text : string) (c : console) :
  extract_pages text ((LibOk <$> texts) ++ LibRaise name :: rest) c
  = (c, Raised (LibraryError name)).
Proof.
  revert text. induction texts as [|t texts IH]; intros text; [done|].
  cbn [fmap list_fmap app extract_pages]. rewrite io_bind_eq. cbn [of_lib ret]. apply IH.
Qed.

Lemma extract_text_ok (w : world) (path : string) (c : console)
  (PdfReader : string -> lib (list (lib (option string)))) (texts : list (option string)) :
  PyPDF2 w = Some PdfReader -> PdfReader path = LibOk (LibOk <$> texts) ->
  extract_text_from_pdf w path c
  = ({| stdin := stdin c; trace := trace c ++ [OpenPdf path] |},
     Returned (concat_str (default EmptyString <$> texts))).
Proof.
  intros Hlib Hpages. unfold extract_text_from_pdf. rewrite Hlib.
  unfold io_bind, emit. rewrite Hpages. cbn [of_lib ret].
  by rewrite extract_pages_ok.
Qed.

Lemma extract_text_fail (w : world) (path : string) (c : console)
  (PdfReader : string -> lib (list (lib (option string))))
  (texts : list (option string)) (name : string) (rest : list (lib (option string))) :
  PyPDF2 w = Some PdfReader ->
  PdfReader path = LibOk ((LibOk <$> texts) ++ LibRaise name :: rest) ->
  extract_text_from_pdf w path c
  = ({| stdin := stdin c; trace := trace c ++ [OpenPdf path] |},
     Raised (LibraryError name)).
Proof.
  intros Hlib Hpages. unfold extract_text_from_pdf. rewrite Hlib.
  unfold io_bind, emit. rewrite Hpages. cbn [of_lib ret].
  by rewrite extract_pages_fail.
Qed.

(** X9. With PyPDF2 present, the text extracted from a PDF is the texts of
    its pages in page order, a page without text counting as empty; when a
    page fails, the exception of the first such page is raised.  The PDF is
    opened once and nothing else is touched. *)
Theorem extract_text_joins_pages (w : world) (path : string) (c : console)
  (PdfReader : string -> lib (list (lib (option string))))
  (pages : list (lib (option string)))
  (Hlib : PyPDF2 w = Some PdfReader) (Hpages : PdfReader path = LibOk pages) :
  (forall texts, pages = LibOk <$> texts ->
     extract_text_from_pdf w path c
     = ({| stdin := stdin c; trace := trace c ++ [OpenPdf path] |},
        Returned (concat_str (default EmptyString <$> texts)))) /\
  (forall texts name rest, pages = (LibOk <$> texts) ++ LibRaise name :: rest ->
     extract_text_from_pdf w path c
     = ({| stdin := stdin c; trace := trace c ++ [OpenPdf path] |},
        Raised (LibraryError name))).
Proof.
  split.
  - intros texts ->. by apply (extract_text_ok w path c PdfReader).
  - intros texts name rest ->. by apply (extract_text_fail w path c PdfReader texts name rest).
Qed.

Lemma main_leaves_stdin_alone_witness :
  post (main example_world
          {| resume := Some "cv.txt"; job_file := Some "job.txt";
             job_text := None; json := false |})
       {| stdin := "not read"; trace := [] |}
       (fun c' _ =>
          stdin c' = "not read" /\
          exists evs, trace c' = [] ++ evs /\
            forall e, e ∈ evs -> e <> ReadStdin /\ forall text, e <> Prompt text).
Proof.
  apply (main_leaves_stdin_alone example_world
           {| resume := Some "cv.txt"; job_file := Some "job.txt";
              job_text := None; json := false |}
           {| stdin := "not read"; trace := [] |}).
  - discriminate.
  - right. discriminate.
Defined.

Lemma unsupported_resume_not_opened_witness :
  let args := {| resume := Some "cv.docx"; job_file := Some "job.txt";
                 job_text := None; json := true |} in
  post (main example_world args) {| stdin := ""; trace := [] |}
       (fun c' o =>
          (forall u, o <> Returned u) /\
          exists evs, trace c' = [] ++ evs /\
            (forall path, OpenPdf path ∉ evs) /\
            (forall path, ReadText path ∈ evs ->
               given (job_text args) = None /\
               exists f, given (job_file args) = Some f /\ path = Path example_world f)).
Proof.
  apply (unsupported_resume_not_opened example_world
           {| resume := Some "cv.docx"; job_file := Some "job.txt";
              job_text := None; json := true |}
           {| stdin := ""; trace := [] |} "cv.docx").
  - reflexivity.
  - discriminate.
  - discriminate.
Defined.


Lemma pdf_library_only_for_pdf_witness :
  let args := {| resume := Some "cv.txt"; job_file := None;
                 job_text := Some "python sql aws"; json := false |} in
  main (without_pdf example_world) args {| stdin := ""; trace := [] |}
  = main example_world args {| stdin := ""; trace := [] |}.
Proof.
  apply (pdf_library_only_for_pdf example_world
           {| resume := Some "cv.txt"; job_file := None;
              job_text := Some "python sql aws"; json := false |}
           {| stdin := ""; trace := [] |} "cv.txt").
  - reflexivity.
  - discriminate.
Defined.

Lemma extract_text_joins_pages_witness :
  extract_text_from_pdf example_world "cv.pdf" {| stdin := ""; trace := [] |}
  = ({| stdin := ""; trace := [OpenPdf "cv.pdf"] |}, Returned "Python SQL.").
Proof.
  apply (proj1 (extract_text_joins_pages example_world "cv.pdf" {| stdin := ""; trace := [] |}
                  _ [LibOk (Some "Python "); LibOk None; LibOk (Some "SQL.")]
                  eq_refl eq_refl)
               [Some "Python "; None; Some "SQL."]).
  reflexivity.
Defined.
